(** * PolicyKit hash tables and action objects

    A shallow embedding of [src/polkit/polkit-hash.c] (chained hash table with
    caller-supplied hash, equality and destructor callbacks, reference
    counting and out-of-memory propagation) and of
    [src/libpolkit/libpolkit-action.c] (a reference-counted holder of an
    action identifier), followed by the properties proved about them.

    Conventions of the embedding:
    - a C pointer is an address in [Z], [NULL] is [0];
    - a pointer to a struct (the table handle, the action handle) is an
      [option] of the struct's current contents, [None] being the null
      pointer, and every function that mutates the pointee returns its new
      contents;
    - an output parameter ([polkit_bool_t *found], [char **out_action_id]) is
      an [option] of the current contents of the variable it points to, and
      the function returns the variable's contents after the call;
    - a bucket chain (nodes linked through [next]) is the list of its nodes in
      chain order, the [next] link being the tail of the list;
    - the allocator, the destructor callbacks and the GLib contract checks are
      effects: they are threaded through a state monad whose state holds the
      outcomes of the allocations still to come and the trace of what
      happened so far; undefined behaviour (null dereference, out-of-bounds
      access, signed overflow, division by zero) is the failure of the monad. *)

From stdpp Require Import base numbers list strings gmap.

Local Open Scope Z_scope.

(** ** Machine integers and pointers *)

Definition ptr := Z.
Definition NULL : ptr := 0.

Definition INT_MAX : Z := 2147483647.
Definition INT_MIN : Z := -2147483648.
Definition UINT_MODULUS : Z := 4294967296.

(** Conversion to [unsigned int] / [polkit_uint32_t]. *)
Definition to_uint (x : Z) : Z := x mod UINT_MODULUS.

(** Conversion of an unsigned 32-bit value to [int] (two's complement). *)
Definition to_int (x : Z) : Z :=
  if to_uint x <=? INT_MAX then to_uint x else to_uint x - UINT_MODULUS.

(** ** Effects *)

(** What a block handed out by the allocator holds. *)
Inductive block :=
| BlkHash        (* a PolKitHash *)
| BlkTopNodes    (* the array of bucket heads *)
| BlkNode        (* a PolKitHashNode *)
| BlkAction      (* a PolKitAction *)
| BlkString (s : string). (* a heap copy of a string *)

Inductive event :=
| EvAlloc (b : block) (ok : bool)   (* an allocation and whether it succeeded *)
| EvFree (b : block)                (* a block given back to the allocator *)
| EvCall (f : ptr) (arg : ptr)      (* a PolKitFreeFunc callback invoked on arg *)
| EvCritical (expr : string).       (* a failed g_return_if_fail check *)

Record world := World {
  alloc_plan : list bool;  (* outcomes of the next fallible allocations *)
  trace : list event       (* what happened so far, oldest first *)
}.

Definition M (A : Type) : Type := world -> option (A * world).

Definition ret {A} (a : A) : M A := fun w => Some (a, w).

Definition bind {A B} (m : M A) (f : A -> M B) : M B :=
  fun w => match m w with
           | Some (a, w') => f a w'
           | None => None
           end.

(** Undefined behaviour. *)
Definition fault {A} : M A := fun _ => None.

#[global] Instance M_ret : MRet M := @ret.
#[global] Instance M_bind : MBind M := fun A B f m => bind m f.

Definition emit (e : event) : M unit :=
  fun w => Some (tt, World (alloc_plan w) (trace w ++ [e])).

(** Modelled from the spec: [p_new0] of polkit-memory.h is not in the sources;
    "all allocation is explicit and may fail". The outcome of each call is
    read off [alloc_plan]; once the plan is exhausted allocations succeed. *)
Definition p_new0 (b : block) : M bool :=
  fun w => match alloc_plan w with
           | [] => Some (true, World [] (trace w ++ [EvAlloc b true]))
           | ok :: plan => Some (ok, World plan (trace w ++ [EvAlloc b ok]))
           end.

(** Modelled from the spec: [p_free] of polkit-memory.h is not in the sources;
    it releases a block, and does nothing on a null pointer. *)
Definition p_free (b : option block) : M unit :=
  match b with
  | Some b => emit (EvFree b)
  | None => ret tt
  end.

(** GLib's [g_return_if_fail] and [g_return_val_if_fail] report the violated
    condition with a critical message and make the function return;
    [g_critical] is the report. *)
Definition g_critical (expr : string) : M unit := emit (EvCritical expr).

(** Calling through a [PolKitFreeFunc] function pointer. *)
Definition call_free_func (f : ptr) (arg : ptr) : M unit :=
  if f =? NULL then fault else emit (EvCall f arg).

(** [x++] and [x--] on an [int]: overflow is undefined. *)
Definition int_incr (x : Z) : M Z :=
  if x + 1 <=? INT_MAX then ret (x + 1) else fault.
Definition int_decr (x : Z) : M Z :=
  if INT_MIN <=? x - 1 then ret (x - 1) else fault.

(** ** polkit-hash.c *)

Module Hash.

Record PolKitHashNode := Node {
  key : ptr;
  value : ptr
  (* next : the rest of the chain *)
}.

Record PolKitHash := Table {
  refcount : Z;
  num_top_nodes : Z;
  top_nodes : option (list (list PolKitHashNode)); (* None: NULL *)
  hash_func : ptr -> Z;
  key_equal_func : ptr -> ptr -> bool;
  key_destroy_func : ptr;   (* NULL: not set *)
  value_destroy_func : ptr  (* NULL: not set *)
}.

Definition set_refcount (h : PolKitHash) (rc : Z) : PolKitHash :=
  Table rc (num_top_nodes h) (top_nodes h) (hash_func h) (key_equal_func h)
        (key_destroy_func h) (value_destroy_func h).

Definition set_top_nodes (h : PolKitHash)
    (t : option (list (list PolKitHashNode))) : PolKitHash :=
  Table (refcount h) (num_top_nodes h) t (hash_func h) (key_equal_func h)
        (key_destroy_func h) (value_destroy_func h).

(** The body of the inner loop of [polkit_hash_unref], which is also what the
    replace path of [polkit_hash_insert] does to the old key and value. *)
Definition destroy_key_value (h : PolKitHash) (node : PolKitHashNode) : M unit :=
  (if negb (key_destroy_func h =? NULL)
   then call_free_func (key_destroy_func h) (key node) else ret tt) ;;
  (if negb (value_destroy_func h =? NULL)
   then call_free_func (value_destroy_func h) (value node) else ret tt).

(** [for (node = hash->top_nodes[n]; node != NULL; node = next)] *)
Fixpoint unref_chain (h : PolKitHash) (chain : list PolKitHashNode) : M unit :=
  match chain with
  | [] => ret tt
  | node :: next =>
      destroy_key_value h node ;;
      p_free (Some BlkNode) ;;
      unref_chain h next
  end.

(** [for (n = ...; n < hash->num_top_nodes; n++)], [todo] iterations left. *)
Fixpoint unref_buckets (h : PolKitHash) (buckets : list (list PolKitHashNode))
    (n : nat) (todo : nat) : M unit :=
  match todo with
  | O => ret tt
  | S todo' =>
      match buckets !! n with
      | None => fault
      | Some chain => unref_chain h chain ;; unref_buckets h buckets (S n) todo'
      end
  end.

Definition polkit_hash_unref (hash : option PolKitHash) : M (option PolKitHash) :=
  match hash with
  | None => g_critical "hash != NULL" ;; ret None
  | Some h =>
      rc ← int_decr (refcount h);
      let h := set_refcount h rc in
      if 0 <? refcount h then ret (Some h)
      else
        match top_nodes h with
        | Some buckets =>
            unref_buckets h buckets 0 (Z.to_nat (num_top_nodes h)) ;;
            p_free (Some BlkTopNodes)
        | None => p_free None
        end ;;
        p_free (Some BlkHash) ;;
        ret None
  end.

Definition polkit_hash_new (hash_func : option (ptr -> Z))
    (key_equal_func : option (ptr -> ptr -> bool))
    (key_destroy_func value_destroy_func : ptr) : M (option PolKitHash) :=
  match hash_func, key_equal_func with
  | None, _ => g_critical "hash_func != NULL" ;; ret None
  | Some _, None => g_critical "key_equal_func != NULL" ;; ret None
  | Some hf, Some ef =>
      ok ← p_new0 BlkHash;
      if (ok : bool) then
        let h := Table 1 11 None hf ef key_destroy_func value_destroy_func in
        ok ← p_new0 BlkTopNodes;
        if (ok : bool) then
          ret (Some (set_top_nodes h
                       (Some (replicate (Z.to_nat (num_top_nodes h)) []))))
        else
          polkit_hash_unref (Some h) ;; ret None
      else ret None
  end.

Definition polkit_hash_ref (hash : option PolKitHash) : M (option PolKitHash) :=
  match hash with
  | None => g_critical "hash != NULL" ;; ret None
  | Some h =>
      rc ← int_incr (refcount h);
      ret (Some (set_refcount h rc))
  end.

(** [bucket = hash->hash_func (key) % hash->num_top_nodes]: the hash is a
    [polkit_uint32_t], so the [int] divisor is converted to unsigned and the
    remainder is converted back to [int]. *)
Definition bucket_of (h : PolKitHash) (k : ptr) : M Z :=
  let n := to_uint (num_top_nodes h) in
  if n =? 0 then fault
  else ret (to_int (to_uint (hash_func h k) mod n)).

(** [hash->top_nodes [bucket]] *)
Definition top_node (h : PolKitHash) (bucket : Z)
    : M (list (list PolKitHashNode) * list PolKitHashNode) :=
  match top_nodes h with
  | None => fault
  | Some buckets =>
      if bucket <? 0 then fault
      else match buckets !! Z.to_nat bucket with
           | None => fault
           | Some chain => ret (buckets, chain)
           end
  end.

(** The [while (node != NULL)] loop of [polkit_hash_insert] together with what
    follows it, as a function of the chain that [*nodep] points to; the result
    is the return value and the chain [*nodep] points to afterwards. *)
Fixpoint insert_chain (h : PolKitHash) (k v : ptr)
    (chain : list PolKitHashNode) : M (bool * list PolKitHashNode) :=
  match chain with
  | node :: next =>
      if key_equal_func h k (key node) then
        (* replace the value *)
        destroy_key_value h node ;;
        ret (true, Node k v :: next)
      else
        '(r, next') ← insert_chain h k v next;
        ret (r, node :: next')
  | [] =>
      ok ← p_new0 BlkNode;
      if (ok : bool) then ret (true, [Node k v]) else ret (false, [])
  end.

Definition polkit_hash_insert (hash : option PolKitHash) (k v : ptr)
    : M (bool * PolKitHash) :=
  match hash with
  | None => fault
  | Some h =>
      bucket ← bucket_of h k;
      '(buckets, chain) ← top_node h bucket;
      '(r, chain') ← insert_chain h k v chain;
      ret (r, set_top_nodes h (Some (<[Z.to_nat bucket := chain']> buckets)))
  end.

(** The [while (node != NULL)] loop of [polkit_hash_lookup]: the value of the
    first node of the chain whose key matches. *)
Fixpoint lookup_chain (h : PolKitHash) (k : ptr)
    (chain : list PolKitHashNode) : option ptr :=
  match chain with
  | node :: next =>
      if key_equal_func h k (key node) then Some (value node)
      else lookup_chain h k next
  | [] => None
  end.

Definition polkit_hash_lookup (hash : option PolKitHash) (k : ptr)
    (found : option bool) : M (ptr * option bool) :=
  match hash with
  | None => fault
  | Some h =>
      bucket ← bucket_of h k;
      '(_, chain) ← top_node h bucket;
      match lookup_chain h k chain with
      | Some v => ret (v, if found is Some _ then Some true else None)
      | None => ret (NULL, if found is Some _ then Some false else None)
      end
  end.

(** [p_direct_hash] and [p_direct_equal] hand over to GLib's [g_direct_hash]
    (the pointer converted to an unsigned int) and [g_direct_equal] (pointer
    identity). *)
Definition p_direct_hash (k : ptr) : Z := to_uint k.
Definition p_direct_equal (v1 v2 : ptr) : bool := v1 =? v2.

(** The first loop of [_run_test]: insert the pairs in order, stop at the
    first failure. *)
Fixpoint insert_all (h : PolKitHash) (kvs : list (ptr * ptr))
    : M (bool * PolKitHash) :=
  match kvs with
  | [] => ret (true, h)
  | kv :: rest =>
      '(r, h') ← polkit_hash_insert (Some h) kv.1 kv.2;
      if (r : bool) then insert_all h' rest else ret (false, h')
  end.

(** [count] calls of [polkit_hash_ref] / [polkit_hash_unref] in a row. *)
Fixpoint ref_times (count : nat) (hash : option PolKitHash)
    : M (option PolKitHash) :=
  match count with
  | O => ret hash
  | S count' => hash' ← polkit_hash_ref hash; ref_times count' hash'
  end.

Fixpoint unref_times (count : nat) (hash : option PolKitHash)
    : M (option PolKitHash) :=
  match count with
  | O => ret hash
  | S count' => hash' ← polkit_hash_unref hash; unref_times count' hash'
  end.

End Hash.

(** ** libpolkit-action.c, identifiers by content *)

Module Action.

Record PolKitAction := Build {
  refcount : Z;
  id : option string (* None: NULL *)
}.

(** GLib's [g_free] releases a block and ignores NULL; [g_strdup] returns a
    fresh copy of a string and NULL for NULL (GLib's allocator aborts the
    process rather than return on allocation failure). *)
Definition g_free (s : option string) : M unit :=
  match s with
  | Some s => emit (EvFree (BlkString s))
  | None => ret tt
  end.

Definition g_strdup (s : option string) : M (option string) :=
  match s with
  | Some s => emit (EvAlloc (BlkString s) true) ;; ret (Some s)
  | None => ret None
  end.

Definition libpolkit_action_new : M (option PolKitAction) :=
  emit (EvAlloc BlkAction true) ;;
  ret (Some (Build 1 None)).

Definition libpolkit_action_ref (action : option PolKitAction)
    : M (option PolKitAction) :=
  match action with
  | None => g_critical "action != NULL" ;; ret None
  | Some a =>
      rc ← int_incr (refcount a);
      ret (Some (Build rc (id a)))
  end.

Definition libpolkit_action_unref (action : option PolKitAction)
    : M (option PolKitAction) :=
  match action with
  | None => g_critical "action != NULL" ;; ret None
  | Some a =>
      rc ← int_decr (refcount a);
      if 0 <? rc then ret (Some (Build rc (id a)))
      else
        g_free (id a) ;;
        emit (EvFree BlkAction) ;;
        ret None
  end.

(** [action_id] is the content of a string of the caller's own ([None] for
    NULL), not the string the action holds; [ActionMem] below has the call on
    pointers, where the two can be told apart. *)
Definition libpolkit_action_set_action_id (action : option PolKitAction)
    (action_id : option string) : M (option PolKitAction) :=
  match action with
  | None => g_critical "action != NULL" ;; ret None
  | Some a =>
      (if id a is Some _ then g_free (id a) else ret tt) ;;
      new_id ← g_strdup action_id;
      ret (Some (Build (refcount a) new_id))
  end.

(** [out_action_id] is [None] for a null pointer and [Some c] for a pointer to
    a [char *] variable that holds [c]; the second component of the result is
    what that variable holds after the call. *)
Definition libpolkit_action_get_action_id (action : option PolKitAction)
    (out_action_id : option (option string))
    : M (bool * option (option string)) :=
  match action with
  | None => g_critical "action != NULL" ;; ret (false, out_action_id)
  | Some a =>
      match out_action_id with
      | None => g_critical "out_action_id != NULL" ;; ret (false, None)
      | Some old =>
          match id a with
          | None => ret (false, Some old)
          | Some s => ret (true, Some (Some s))
          end
      end
  end.

End Action.

(** ** libpolkit-action.c, with the identifiers in memory

    [Action] above takes an identifier by its content, which describes a
    caller that passes a string of its own. Here an identifier is the address
    of a C string, as in the code, so that a pointer the action holds (the
    one [libpolkit_action_get_action_id] hands out) can be passed back to
    it. *)

Module ActionMem.

Record PolKitAction := Build {
  refcount : Z;
  id : ptr (* NULL or the address of a string *)
}.

(** The world together with the C strings alive in memory, by address. *)
Record state := State {
  events : world;
  strings : gmap Z string
}.

Definition S (A : Type) : Type := state -> option (A * state).

#[global] Instance S_ret : MRet S := fun A a st => Some (a, st).
#[global] Instance S_bind : MBind S :=
  fun A B f m st => match m st with
                    | Some (a, st') => f a st'
                    | None => None
                    end.

(** An effect on the world alone. *)
Definition lift {A} (m : M A) : S A :=
  fun st => match m (events st) with
            | Some (a, w) => Some (a, State w (strings st))
            | None => None
            end.

(** Undefined behaviour. *)
Definition undefined {A} : S A := fun _ => None.

(** The string at address [p], if a live one is there. *)
Definition string_at (p : ptr) : S (option string) :=
  fun st => Some (strings st !! p, st).

Definition update_strings (f : gmap Z string -> gmap Z string) : S unit :=
  fun st => Some (tt, State (events st) (f (strings st))).

(** The address the allocator returns for a new block: neither NULL nor the
    address of a live string (it may be the address of a freed one). *)
Definition fresh_address (m : gmap Z string) : ptr :=
  fresh ({[NULL]} ∪ dom m).

Definition new_address : S ptr :=
  fun st => Some (fresh_address (strings st), st).

(** GLib's [g_free] ignores NULL and releases the block at [p]; releasing an
    address that holds no live block is undefined. *)
Definition g_free (p : ptr) : S unit :=
  if p =? NULL then mret tt
  else
    s ← string_at p;
    match s with
    | Some s => update_strings (delete p) ;; lift (emit (EvFree (BlkString s)))
    | None => undefined
    end.

(** GLib's [g_strdup] returns NULL for NULL; otherwise it reads the string at
    [p] (undefined when no live string is there) and returns the address of a
    fresh copy. GLib's allocator aborts the process rather than return on
    allocation failure. *)
Definition g_strdup (p : ptr) : S ptr :=
  if p =? NULL then mret NULL
  else
    s ← string_at p;
    match s with
    | Some s =>
        q ← new_address;
        update_strings (<[q := s]>) ;;
        lift (emit (EvAlloc (BlkString s) true)) ;;
        mret q
    | None => undefined
    end.

Definition libpolkit_action_new : S (option PolKitAction) :=
  lift (emit (EvAlloc BlkAction true)) ;;
  mret (Some (Build 1 NULL)).

Definition libpolkit_action_ref (action : option PolKitAction)
    : S (option PolKitAction) :=
  match action with
  | None => lift (g_critical "action != NULL") ;; mret None
  | Some a =>
      rc ← lift (int_incr (refcount a));
      mret (Some (Build rc (id a)))
  end.

Definition libpolkit_action_unref (action : option PolKitAction)
    : S (option PolKitAction) :=
  match action with
  | None => lift (g_critical "action != NULL") ;; mret None
  | Some a =>
      rc ← lift (int_decr (refcount a));
      if 0 <? rc then mret (Some (Build rc (id a)))
      else
        g_free (id a) ;;
        lift (emit (EvFree BlkAction)) ;;
        mret None
  end.

Definition libpolkit_action_set_action_id (action : option PolKitAction)
    (action_id : ptr) : S (option PolKitAction) :=
  match action with
  | None => lift (g_critical "action != NULL") ;; mret None
  | Some a =>
      (if negb (id a =? NULL) then g_free (id a) else mret tt) ;;
      new_id ← g_strdup action_id;
      mret (Some (Build (refcount a) new_id))
  end.

(** [out_action_id] is [None] for a null pointer and [Some c] for a pointer to
    a [char *] variable that holds [c]; the second component of the result is
    what that variable holds after the call. *)
Definition libpolkit_action_get_action_id (action : option PolKitAction)
    (out_action_id : option ptr) : S (bool * option ptr) :=
  match action with
  | None => lift (g_critical "action != NULL") ;; mret (false, out_action_id)
  | Some a =>
      match out_action_id with
      | None => lift (g_critical "out_action_id != NULL") ;; mret (false, None)
      | Some old =>
          if id a =? NULL then mret (false, Some old)
          else mret (true, Some (id a))
      end
  end.

(** One call of [libpolkit_action_set_action_id] per pointer, in order. *)
Fixpoint set_all (ids : list ptr) (action : option PolKitAction)
    : S (option PolKitAction) :=
  match ids with
  | [] => mret action
  | action_id :: rest =>
      action' ← libpolkit_action_set_action_id action action_id;
      set_all rest action'
  end.

(** A caller sets an identifier from a string of its own at [c], asks the
    action for its identifier and sets that again. *)
Definition set_get_set (c : ptr) : S (option PolKitAction) :=
  action ← libpolkit_action_new;
  action ← libpolkit_action_set_action_id action c;
  r ← libpolkit_action_get_action_id action (Some NULL);
  libpolkit_action_set_action_id action (default NULL (r.2)).

End ActionMem.

(** An action of [Action] (identifier by content) describes an action of
    [ActionMem] in a given memory: same count, and the identifier is the
    string at the stored address, which is live. *)
Definition represents (st : ActionMem.state) (am : ActionMem.PolKitAction)
    (av : Action.PolKitAction) : Prop :=
  ActionMem.refcount am = Action.refcount av /\
  Action.id av = (if ActionMem.id am =? NULL then None
                  else ActionMem.strings st !! ActionMem.id am) /\
  (ActionMem.id am = NULL \/
   is_Some (ActionMem.strings st !! ActionMem.id am)).

(** ** Notions used to state the properties *)

Import Hash.

(** A table as [polkit_hash_new] builds it and every operation keeps it: a
    positive bucket count and a bucket array of that many chains. *)
Definition wf (h : PolKitHash) : Prop :=
  0 < num_top_nodes h <= INT_MAX /\
  length <$> top_nodes h = Some (Z.to_nat (num_top_nodes h)).

(** [hash_fn(k) mod bucket_count], the index of the bucket of key [k]. *)
Definition slot (h : PolKitHash) (k : ptr) : nat :=
  Z.to_nat (to_uint (hash_func h k) mod num_top_nodes h).

(** The bucket array and the chain of the bucket of key [k]. *)
Definition buckets_of (h : PolKitHash) : list (list PolKitHashNode) :=
  default [] (top_nodes h).

Definition chain_at (h : PolKitHash) (k : ptr) : list PolKitHashNode :=
  default [] (buckets_of h !! slot h k).

(** [equal_fn(k, node.key)], the test both scans apply to a node. *)
Definition matching (h : PolKitHash) (k : ptr) (node : PolKitHashNode) : bool :=
  key_equal_func h k (key node).

(** Key [k] is present: its bucket's chain has a node whose key satisfies
    [equal_fn(k, node.key)]. *)
Definition present (h : PolKitHash) (k : ptr) : bool :=
  existsb (matching h k) (chain_at h k).

(** The node that holds key [k]: the first matching node of its bucket. *)
Definition stored_node (h : PolKitHash) (k : ptr) : option PolKitHashNode :=
  List.find (matching h k) (chain_at h k).

(** The destructor callbacks due for one node: the key destructor on its key
    if set, then the value destructor on its value if set. *)
Definition destroy_events (h : PolKitHash) (node : PolKitHashNode) : list event :=
  (if key_destroy_func h =? NULL then []
   else [EvCall (key_destroy_func h) (key node)]) ++
  (if value_destroy_func h =? NULL then []
   else [EvCall (value_destroy_func h) (value node)]).

(** What the final release does: every node of every bucket, in bucket and
    chain order, has its key and value destroyed and is freed; then the
    bucket array and the table are freed. *)
Definition teardown_events (h : PolKitHash) : list event :=
  concat ((λ node, destroy_events h node ++ [EvFree BlkNode])
            <$> concat (buckets_of h))
  ++ [EvFree BlkTopNodes; EvFree BlkHash].

(** No key of the list equals another one of the list under [equal_fn], in
    either argument order. *)
Fixpoint pairwise_distinct (equal : ptr -> ptr -> bool) (ks : list ptr) : bool :=
  match ks with
  | [] => true
  | k :: rest =>
      forallb (λ k', negb (equal k k') && negb (equal k' k)) rest
      && pairwise_distinct equal rest
  end.

(** The node at position [a] of bucket [i]. *)
Definition node_at (h : PolKitHash) (i a : nat) : option PolKitHashNode :=
  buckets_of h !! i ≫= (.!! a).

(** Tables reachable from construction through the API. *)
Inductive reachable (hf : ptr -> Z) (ef : ptr -> ptr -> bool) (kd vd : ptr)
    : PolKitHash -> Prop :=
| reachable_new w h w' :
    polkit_hash_new (Some hf) (Some ef) kd vd w = Some (Some h, w') ->
    reachable hf ef kd vd h
| reachable_insert h k v w r h' w' :
    reachable hf ef kd vd h ->
    polkit_hash_insert (Some h) k v w = Some ((r, h'), w') ->
    reachable hf ef kd vd h'
| reachable_ref h w h' w' :
    reachable hf ef kd vd h ->
    polkit_hash_ref (Some h) w = Some (Some h', w') ->
    reachable hf ef kd vd h'
| reachable_unref h w h' w' :
    reachable hf ef kd vd h ->
    polkit_hash_unref (Some h) w = Some (Some h', w') ->
    reachable hf ef kd vd h'.

(** The contract of the callbacks: [equal_fn] is symmetric and transitive, and
    keys it reports equal have the same hash. *)
Definition equal_symmetric (ef : ptr -> ptr -> bool) : Prop :=
  forall a b, ef a b = true -> ef b a = true.
Definition equal_transitive (ef : ptr -> ptr -> bool) : Prop :=
  forall a b c, ef a b = true -> ef b c = true -> ef a c = true.
Definition hash_respects_equal (hf : ptr -> Z) (ef : ptr -> ptr -> bool) : Prop :=
  forall a b, ef a b = true -> to_uint (hf a) = to_uint (hf b).

(** The table with the chain of bucket [i] replaced by [chain]. *)
Definition set_chain (h : PolKitHash) (i : nat) (chain : list PolKitHashNode)
    : PolKitHash :=
  set_top_nodes h (Some (<[i := chain]> (buckets_of h))).

(** No node of the chain has a key equal to the key of a later node. *)
Fixpoint chain_distinct (equal : ptr -> ptr -> bool)
    (chain : list PolKitHashNode) : Prop :=
  match chain with
  | [] => True
  | node :: next =>
      Forall (λ node', equal (key node) (key node') = false) next /\
      chain_distinct equal next
  end.

(** The two invariants of the bucket array: every node sits in the bucket of
    its key, and no chain holds two equal keys. *)
Definition slots_inv (h : PolKitHash) : Prop :=
  forall i chain,
    buckets_of h !! i = Some chain ->
    Forall (λ node, slot h (key node) = i) chain.

Definition distinct_inv (h : PolKitHash) : Prop :=
  forall i chain,
    buckets_of h !! i = Some chain ->
    chain_distinct (key_equal_func h) chain.

(** The outcome of the next fallible allocation and the plan after it. *)
Definition next_alloc (w : world) : bool :=
  match alloc_plan w with
  | [] => true
  | ok :: _ => ok
  end.

(** Kinds of events. *)
Definition is_alloc (e : event) : bool :=
  match e with EvAlloc _ _ => true | _ => false end.
Definition is_call (e : event) : bool :=
  match e with EvCall _ _ => true | _ => false end.

(** A table with identity keys, two colliding keys in bucket 1 and one key in
    bucket 2, and destructors at addresses 7 and 8; the tables and worlds the
    examples run on. *)
Definition example_table : PolKitHash :=
  Table 1 11
        (Some [[]; [Node 1 100; Node 12 200]; [Node 2 300];
               []; []; []; []; []; []; []; []])
        p_direct_hash p_direct_equal 7 8.

Definition world_ok : world := World [] [].
Definition world_oom : world := World [false] [].

(** ** Notions used for the accounting of blocks and destructor calls *)

#[global] Instance block_eq_dec : EqDecision block.
Proof. solve_decision. Defined.

(** What one event adds to the number of live blocks of kind [b]: a
    successful allocation adds one, a free takes one away. *)
Definition event_delta (b : block) (e : event) : Z :=
  match e with
  | EvAlloc b' true => if decide (b' = b) then 1 else 0
  | EvFree b' => if decide (b' = b) then -1 else 0
  | _ => 0
  end.

(** Blocks of kind [b] allocated and not yet freed along a trace. *)
Fixpoint live (b : block) (tr : list event) : Z :=
  match tr with
  | [] => 0
  | e :: tr' => event_delta b e + live b tr'
  end.

(** The destructor calls of a trace, in order. *)
Definition calls_of (tr : list event) : list event := List.filter is_call tr.

(** All the nodes of a table, bucket by bucket. *)
Definition nodes_of (h : PolKitHash) : list PolKitHashNode :=
  concat (buckets_of h).

(** The blocks of kind [b] a live table holds: itself, its bucket array and
    one block per node. *)
Definition blocks_held (h : PolKitHash) (b : block) : Z :=
  match b with
  | BlkHash => 1
  | BlkTopNodes => 1
  | BlkNode => Z.of_nat (length (nodes_of h))
  | _ => 0
  end.

(** The value of the last pair of [kvs] whose key [k] matches, if any. *)
Fixpoint assoc_last (equal : ptr -> ptr -> bool) (kvs : list (ptr * ptr))
    (k : ptr) : option ptr :=
  match kvs with
  | [] => None
  | kv :: rest =>
      match assoc_last equal rest k with
      | Some v => Some v
      | None => if equal k kv.1 then Some kv.2 else None
      end
  end.

(** ** The test routine of polkit-hash.c *)

(** GLib's [g_assert] aborts the process when the condition is false; the
    abort is the failure of the monad. *)
Definition g_assert (cond : bool) : M unit :=
  if cond then ret tt else fault.

(** The second block of [_run_test] ("direct hash tables"): an identity-keyed
    table without destructors that is inserted into itself as key and value.
    [self] is the address of the table, which the block uses as key and
    value, and [found] is what the uninitialised local of that name holds.
    The result is whether the block ran through (the routine then returns
    TRUE). *)
Definition run_test_direct_block (self : ptr) (found : bool) : M bool :=
  hash ← polkit_hash_new (Some p_direct_hash) (Some p_direct_equal) NULL NULL;
  match hash with
  | Some h =>
      '(r, h) ← polkit_hash_insert (Some h) self self;
      h ← (if (r : bool) then
             '(value, found) ← polkit_hash_lookup (Some h) self (Some found);
             g_assert ((value =? self) && bool_decide (found = Some true)) ;;
             '(r, h) ← polkit_hash_insert (Some h) self NULL;
             if (r : bool) then
               '(value, found) ← polkit_hash_lookup (Some h) self found;
               g_assert ((value =? NULL) && bool_decide (found = Some true)) ;;
               mret h
             else mret h
           else mret h);
      polkit_hash_unref (Some h) ;;
      mret true
  | None => mret true
  end.

(** ** Sequences of calls on an action *)

(** [count] calls of [libpolkit_action_ref] / [libpolkit_action_unref] in a
    row. *)
Fixpoint action_ref_times (count : nat) (action : option Action.PolKitAction)
    : M (option Action.PolKitAction) :=
  match count with
  | O => ret action
  | S count' =>
      action' ← Action.libpolkit_action_ref action;
      action_ref_times count' action'
  end.

Fixpoint action_unref_times (count : nat) (action : option Action.PolKitAction)
    : M (option Action.PolKitAction) :=
  match count with
  | O => ret action
  | S count' =>
      action' ← Action.libpolkit_action_unref action;
      action_unref_times count' action'
  end.

(** One call of [libpolkit_action_set_action_id] per identifier, in order. *)
Fixpoint action_set_all (ids : list (option string))
    (action : option Action.PolKitAction) : M (option Action.PolKitAction) :=
  match ids with
  | [] => ret action
  | action_id :: rest =>
      action' ← Action.libpolkit_action_set_action_id action action_id;
      action_set_all rest action'
  end.

(** The blocks of kind [b] a live action holds: itself and the copy of its
    identifier. *)
Definition action_blocks_held (a : Action.PolKitAction) (b : block) : Z :=
  match b with
  | BlkAction => 1
  | BlkString s => if decide (Action.id a = Some s) then 1 else 0
  | _ => 0
  end.

(** * Properties *)

(** ** The monad *)

Lemma bind_run {A B} (m : M A) (f : A -> M B) (w : world) :
  (m ≫= f) w = match m w with Some (a, w') => f a w' | None => None end.
Proof. reflexivity. Qed.

Lemma ret_run {A} (a : A) (w : world) : mret (M := M) a w = Some (a, w).
Proof. reflexivity. Qed.

Lemma world_app_nil (w : world) : World (alloc_plan w) (trace w ++ []) = w.
Proof. destruct w; simpl. by rewrite app_nil_r. Qed.

(** ** Buckets of a well-formed table *)

Lemma to_uint_small (x : Z) : 0 <= x < UINT_MODULUS -> to_uint x = x.
Proof. intros. unfold to_uint. by apply Z.mod_small. Qed.

Lemma slot_lt (h : PolKitHash) (k : ptr) :
  wf h -> (slot h k < Z.to_nat (num_top_nodes h))%nat.
Proof.
  intros [Hn _]. unfold slot.
  pose proof (Z.mod_pos_bound (to_uint (hash_func h k)) (num_top_nodes h)).
  lia.
Qed.

Lemma bucket_of_wf (h : PolKitHash) (k : ptr) (w : world) :
  wf h -> bucket_of h k w = Some (Z.of_nat (slot h k), w).
Proof.
  intros [Hn _]. unfold bucket_of, slot, INT_MAX in *.
  rewrite (to_uint_small (num_top_nodes h)) by (unfold UINT_MODULUS; lia).
  destruct (Z.eqb_spec (num_top_nodes h) 0) as [|_]; [lia|].
  pose proof (Z.mod_pos_bound (to_uint (hash_func h k)) (num_top_nodes h)).
  unfold to_int, INT_MAX.
  rewrite (to_uint_small (_ mod _)) by (unfold UINT_MODULUS; lia).
  destruct (Z.leb_spec (to_uint (hash_func h k) mod num_top_nodes h) 2147483647);
    [|lia].
  rewrite Z2Nat.id by lia. reflexivity.
Qed.

Lemma wf_buckets (h : PolKitHash) :
  wf h -> top_nodes h = Some (buckets_of h) /\
          length (buckets_of h) = Z.to_nat (num_top_nodes h).
Proof.
  intros [_ Hlen]. unfold buckets_of.
  destruct (top_nodes h); simpl in *; [|done]. split; congruence.
Qed.

Lemma wf_chain_at (h : PolKitHash) (k : ptr) :
  wf h -> buckets_of h !! slot h k = Some (chain_at h k).
Proof.
  intros Hwf. unfold chain_at.
  destruct (lookup_lt_is_Some_2 (buckets_of h) (slot h k)) as [c ->]; [|done].
  destruct (wf_buckets h Hwf) as [_ ->]. by apply slot_lt.
Qed.

Lemma top_node_wf (h : PolKitHash) (k : ptr) (w : world) :
  wf h ->
  top_node h (Z.of_nat (slot h k)) w = Some ((buckets_of h, chain_at h k), w).
Proof.
  intros Hwf. unfold top_node.
  destruct (wf_buckets h Hwf) as [-> _].
  destruct (Z.ltb_spec (Z.of_nat (slot h k)) 0); [lia|].
  rewrite Nat2Z.id, (wf_chain_at h k Hwf). reflexivity.
Qed.

(** ** Scanning a chain *)

Lemma p_new0_run (b : block) (w : world) :
  p_new0 b w = Some (next_alloc w,
                     World (tail (alloc_plan w))
                           (trace w ++ [EvAlloc b (next_alloc w)])).
Proof. unfold p_new0, next_alloc. by destruct (alloc_plan w). Qed.

Lemma destroy_key_value_run (h : PolKitHash) (node : PolKitHashNode) (w : world) :
  destroy_key_value h node w
  = Some (tt, World (alloc_plan w) (trace w ++ destroy_events h node)).
Proof.
  unfold destroy_key_value, destroy_events, call_free_func, emit.
  rewrite bind_run.
  destruct (key_destroy_func h =? NULL), (value_destroy_func h =? NULL);
    simpl; rewrite ?ret_run; simpl; rewrite <- ?app_assoc, ?app_nil_r;
    by destruct w.
Qed.

Lemma existsb_find {A} (f : A -> bool) (l : list A) :
  existsb f l = bool_decide (is_Some (List.find f l)).
Proof.
  induction l as [|x l IH]; simpl; [done|]. by destruct (f x).
Qed.

Lemma find_split {A} (f : A -> bool) (l : list A) (x : A) :
  List.find f l = Some x ->
  exists l1 l2, l = l1 ++ x :: l2 /\ existsb f l1 = false /\ f x = true.
Proof.
  induction l as [|y l IH]; simpl; [done|].
  destruct (f y) eqn:Hy.
  - intros [= ->]. by exists [], l.
  - intros Hfind. destruct (IH Hfind) as (l1 & l2 & -> & Hl1 & Hx).
    exists (y :: l1), l2. simpl. by rewrite Hy.
Qed.

Lemma lookup_chain_find (h : PolKitHash) (k : ptr) (chain : list PolKitHashNode) :
  lookup_chain h k chain = value <$> List.find (matching h k) chain.
Proof.
  induction chain as [|node next IH]; simpl; [done|].
  unfold matching at 1. by destruct (key_equal_func h k (key node)).
Qed.

Lemma insert_chain_skip (h : PolKitHash) (k v : ptr)
    (l1 l2 : list PolKitHashNode) (w : world) :
  existsb (matching h k) l1 = false ->
  insert_chain h k v (l1 ++ l2) w
  = match insert_chain h k v l2 w with
    | Some ((r, l2'), w') => Some ((r, l1 ++ l2'), w')
    | None => None
    end.
Proof.
  induction l1 as [|node l1 IH]; simpl.
  - intros _. by destruct (insert_chain h k v l2 w) as [[[r l2'] w']|].
  - unfold matching at 1. destruct (key_equal_func h k (key node)); [done|].
    simpl. intros Hl1. rewrite bind_run, (IH Hl1).
    by destruct (insert_chain h k v l2 w) as [[[r l2'] w']|].
Qed.

Lemma insert_chain_match (h : PolKitHash) (k v : ptr) (old : PolKitHashNode)
    (l1 l2 : list PolKitHashNode) (w : world) :
  existsb (matching h k) l1 = false ->
  matching h k old = true ->
  insert_chain h k v (l1 ++ old :: l2) w
  = Some ((true, l1 ++ Node k v :: l2),
          World (alloc_plan w) (trace w ++ destroy_events h old)).
Proof.
  intros Hl1 Hold. rewrite insert_chain_skip by done. simpl.
  unfold matching in Hold. rewrite Hold.
  by rewrite bind_run, destroy_key_value_run.
Qed.

Lemma insert_chain_no_match (h : PolKitHash) (k v : ptr)
    (chain : list PolKitHashNode) (w : world) :
  existsb (matching h k) chain = false ->
  insert_chain h k v chain w
  = Some ((next_alloc w, if next_alloc w then chain ++ [Node k v] else chain),
          World (tail (alloc_plan w))
                (trace w ++ [EvAlloc BlkNode (next_alloc w)])).
Proof.
  intros Hchain.
  rewrite <- (app_nil_r chain) at 1. rewrite insert_chain_skip by done.
  simpl. rewrite bind_run, p_new0_run.
  destruct (next_alloc w); simpl; by rewrite ?app_nil_r.
Qed.

(** ** Insert and lookup on a well-formed table *)

Lemma insert_run (h : PolKitHash) (k v : ptr) (w : world) :
  wf h ->
  polkit_hash_insert (Some h) k v w
  = match insert_chain h k v (chain_at h k) w with
    | Some ((r, chain'), w') =>
        Some ((r, set_chain h (slot h k) chain'), w')
    | None => None
    end.
Proof.
  intros Hwf. unfold polkit_hash_insert.
  rewrite bind_run, bucket_of_wf by done.
  rewrite bind_run, top_node_wf by done.
  rewrite bind_run, Nat2Z.id.
  by destruct (insert_chain h k v (chain_at h k) w) as [[[r chain'] w']|].
Qed.

Lemma lookup_run (h : PolKitHash) (k : ptr) (found : option bool) (w : world) :
  wf h ->
  polkit_hash_lookup (Some h) k found w
  = Some ((default NULL (value <$> stored_node h k),
           if found is Some _ then Some (present h k) else None), w).
Proof.
  intros Hwf. unfold polkit_hash_lookup, present, stored_node.
  rewrite bind_run, bucket_of_wf by done.
  rewrite bind_run, top_node_wf by done.
  rewrite lookup_chain_find, existsb_find.
  by destruct (List.find (matching h k) (chain_at h k)), found.
Qed.

Lemma present_stored_node (h : PolKitHash) (k : ptr) :
  present h k = true <-> is_Some (stored_node h k).
Proof.
  unfold present, stored_node. rewrite existsb_find. apply bool_decide_eq_true.
Qed.

Lemma absent_stored_node (h : PolKitHash) (k : ptr) :
  present h k = false <-> stored_node h k = None.
Proof.
  unfold present, stored_node. rewrite existsb_find, bool_decide_eq_false.
  by rewrite eq_None_not_Some.
Qed.

Lemma set_top_nodes_same (h : PolKitHash) :
  set_top_nodes h (top_nodes h) = h.
Proof. by destruct h. Qed.

Lemma insert_present_run (h : PolKitHash) (k v : ptr) (w : world)
    (old : PolKitHashNode) :
  wf h ->
  stored_node h k = Some old ->
  exists l1 l2,
    chain_at h k = l1 ++ old :: l2 /\
    existsb (matching h k) l1 = false /\
    matching h k old = true /\
    polkit_hash_insert (Some h) k v w
    = Some ((true, set_chain h (slot h k) (l1 ++ Node k v :: l2)),
            World (alloc_plan w) (trace w ++ destroy_events h old)).
Proof.
  intros Hwf Hold.
  destruct (find_split _ _ _ Hold) as (l1 & l2 & Hchain & Hl1 & Hm).
  exists l1, l2. repeat split; try done.
  by rewrite insert_run, Hchain, insert_chain_match.
Qed.

Lemma insert_absent_run (h : PolKitHash) (k v : ptr) (w : world) :
  wf h ->
  present h k = false ->
  polkit_hash_insert (Some h) k v w
  = Some ((next_alloc w,
           if next_alloc w
           then set_chain h (slot h k) (chain_at h k ++ [Node k v])
           else h),
          World (tail (alloc_plan w))
                (trace w ++ [EvAlloc BlkNode (next_alloc w)])).
Proof.
  intros Hwf Habs. rewrite insert_run, insert_chain_no_match by done.
  destruct (next_alloc w); [done|]. unfold set_chain.
  rewrite list_insert_id by by apply wf_chain_at.
  destruct (wf_buckets h Hwf) as [<- _]. by rewrite set_top_nodes_same.
Qed.

(** A failed insert can only be a failed node allocation for an absent key. *)
Lemma insert_failure_inv (h : PolKitHash) (k v : ptr) (w : world)
    (h' : PolKitHash) (w' : world) :
  wf h ->
  polkit_hash_insert (Some h) k v w = Some ((false, h'), w') ->
  present h k = false /\ next_alloc w = false.
Proof.
  intros Hwf Hins. destruct (present h k) eqn:Hp.
  - apply present_stored_node in Hp as [old Hold].
    destruct (insert_present_run h k v w old Hwf Hold) as (? & ? & _ & _ & _ & Heq).
    congruence.
  - rewrite insert_absent_run in Hins by done.
    destruct (next_alloc w); [congruence|done].
Qed.

(** ** Replacing one chain *)

Lemma set_chain_wf (h : PolKitHash) (i : nat) (chain : list PolKitHashNode) :
  wf h -> wf (set_chain h i chain).
Proof.
  intros Hwf. destruct (wf_buckets h Hwf) as [_ Hlen].
  destruct Hwf as [Hn _]. split; [done|]. simpl.
  by rewrite length_insert, Hlen.
Qed.

Lemma set_chain_slot (h : PolKitHash) (i : nat) (chain : list PolKitHashNode)
    (k : ptr) :
  slot (set_chain h i chain) k = slot h k.
Proof. reflexivity. Qed.

Lemma set_chain_matching (h : PolKitHash) (i : nat) (chain : list PolKitHashNode) :
  matching (set_chain h i chain) = matching h.
Proof. reflexivity. Qed.

Lemma set_chain_buckets (h : PolKitHash) (i : nat) (chain : list PolKitHashNode) :
  buckets_of (set_chain h i chain) = <[i := chain]> (buckets_of h).
Proof. reflexivity. Qed.

Lemma set_chain_chain_at (h : PolKitHash) (k k' : ptr)
    (chain : list PolKitHashNode) :
  wf h ->
  chain_at (set_chain h (slot h k) chain) k'
  = if decide (slot h k' = slot h k) then chain else chain_at h k'.
Proof.
  intros Hwf. unfold chain_at at 1.
  rewrite set_chain_buckets, set_chain_slot.
  destruct (decide (slot h k' = slot h k)) as [->|Hne].
  - rewrite list_lookup_insert_eq; [done|].
    destruct (wf_buckets h Hwf) as [_ ->]. by apply slot_lt.
  - by rewrite list_lookup_insert_ne.
Qed.

Lemma insert_shape (h : PolKitHash) (k v : ptr) (w : world) (r : bool)
    (h' : PolKitHash) (w' : world) :
  wf h ->
  polkit_hash_insert (Some h) k v w = Some ((r, h'), w') ->
  exists chain', h' = set_chain h (slot h k) chain'.
Proof.
  intros Hwf. rewrite insert_run by done.
  destruct (insert_chain h k v (chain_at h k) w) as [[[r0 chain'] w0]|];
    [|done].
  intros [= _ <- _]. by exists chain'.
Qed.

Lemma insert_wf (h : PolKitHash) (k v : ptr) (w : world) (r : bool)
    (h' : PolKitHash) (w' : world) :
  wf h ->
  polkit_hash_insert (Some h) k v w = Some ((r, h'), w') ->
  wf h'.
Proof.
  intros Hwf Hins. destruct (insert_shape _ _ _ _ _ _ _ Hwf Hins) as [c ->].
  by apply set_chain_wf.
Qed.

(** The replace and append paths never fault on a well-formed table. *)
Lemma insert_total (h : PolKitHash) (k v : ptr) (w : world) :
  wf h -> is_Some (polkit_hash_insert (Some h) k v w).
Proof.
  intros Hwf. destruct (present h k) eqn:Hp.
  - apply present_stored_node in Hp as [old Hold].
    destruct (insert_present_run h k v w old Hwf Hold) as (? & ? & _ & _ & _ & ->).
    by eexists.
  - rewrite insert_absent_run by done. by eexists.
Qed.

(** ** The example table *)

Lemma example_table_wf : wf example_table.
Proof. split; [done|reflexivity]. Qed.

(** The example table is what construction followed by three inserts gives. *)
Lemma example_table_built :
  (hash ← polkit_hash_new (Some p_direct_hash) (Some p_direct_equal) 7 8;
   if hash is Some h then insert_all h [(1, 100); (12, 200); (2, 300)]
   else mret (false, example_table)) world_ok
  = Some ((true, example_table),
          World [] [EvAlloc BlkHash true; EvAlloc BlkTopNodes true;
                    EvAlloc BlkNode true; EvAlloc BlkNode true;
                    EvAlloc BlkNode true]).
Proof. reflexivity. Qed.

(** ** Insert: the replace path *)

(** C6: when [polkit_hash_insert] is called with a key already present, the
    node holding it is the first matching node [old] of the key's bucket; the
    call invokes the key destructor on [old]'s key and then the value
    destructor on [old]'s value, each exactly once and each only if set (these
    are the only events), and overwrites that node's key and value with the
    caller's, leaving every other node in place. *)
Theorem insert_present_destroys_then_overwrites
    (h : PolKitHash) (k v : ptr) (w : world) :
  wf h ->
  present h k = true ->
  exists old l1 l2,
    stored_node h k = Some old /\
    chain_at h k = l1 ++ old :: l2 /\
    existsb (matching h k) l1 = false /\
    polkit_hash_insert (Some h) k v w
    = Some ((true, set_chain h (slot h k) (l1 ++ Node k v :: l2)),
            World (alloc_plan w)
                  (trace w ++
                   (if key_destroy_func h =? NULL then []
                    else [EvCall (key_destroy_func h) (key old)]) ++
                   (if value_destroy_func h =? NULL then []
                    else [EvCall (value_destroy_func h) (value old)]))).
Proof.
  intros Hwf Hp. apply present_stored_node in Hp as [old Hold].
  destruct (insert_present_run h k v w old Hwf Hold)
    as (l1 & l2 & Hchain & Hl1 & _ & Hins).
  by exists old, l1, l2.
Qed.

Lemma insert_present_destroys_then_overwrites_witness :
  wf example_table /\ present example_table 12 = true /\
  exists old l1 l2,
    stored_node example_table 12 = Some old /\
    chain_at example_table 12 = l1 ++ old :: l2 /\
    existsb (matching example_table 12) l1 = false /\
    polkit_hash_insert (Some example_table) 12 201 world_ok
    = Some ((true, set_chain example_table (slot example_table 12)
                     (l1 ++ Node 12 201 :: l2)),
            World (alloc_plan world_ok)
                  (trace world_ok ++
                   (if key_destroy_func example_table =? NULL then []
                    else [EvCall (key_destroy_func example_table) (key old)]) ++
                   (if value_destroy_func example_table =? NULL then []
                    else [EvCall (value_destroy_func example_table) (value old)]))).
Proof.
  split; [split; [done|reflexivity]|]. split; [reflexivity|].
  apply (insert_present_destroys_then_overwrites example_table 12 201 world_ok).
  - split; [done|reflexivity].
  - reflexivity.
Defined.

(** The replace path on the example table, evaluated: the old key 12 and the
    old value 200 are handed to the destructors, in this order. *)
Example insert_present_example :
  match polkit_hash_insert (Some example_table) 12 201 world_ok with
  | Some ((r, h'), w') => Some (r, top_nodes h', w')
  | None => None
  end
  = Some (true, Some [[]; [Node 1 100; Node 12 201]; [Node 2 300];
                      []; []; []; []; []; []; []; []],
          World [] [EvCall 7 12; EvCall 8 200]).
Proof. reflexivity. Qed.

(** C3: for every table and every key already present in it, insert takes the
    replace path whatever the allocator would answer: the first matching node
    of the key's bucket is overwritten in place with the caller's key and
    value (no node is added, nothing else changes), the only events are the
    destructor calls on the old key and value, no allocation is performed
    (no allocation event, the allocation plan untouched), and the call
    returns success. *)
Theorem insert_present_cannot_fail (h : PolKitHash) (k v : ptr) :
  wf h ->
  present h k = true ->
  exists old l1 l2,
    stored_node h k = Some old /\
    chain_at h k = l1 ++ old :: l2 /\
    existsb (matching h k) l1 = false /\
    forallb (λ e, negb (is_alloc e)) (destroy_events h old) = true /\
    forall w,
      polkit_hash_insert (Some h) k v w
      = Some ((true, set_chain h (slot h k) (l1 ++ Node k v :: l2)),
              World (alloc_plan w) (trace w ++ destroy_events h old)).
Proof.
  intros Hwf Hp. apply present_stored_node in Hp as [old Hold].
  destruct (find_split _ _ _ Hold) as (l1 & l2 & Hchain & Hl1 & Hm).
  exists old, l1, l2. repeat (split; [done|]). split.
  - unfold destroy_events.
    by destruct (key_destroy_func h =? NULL), (value_destroy_func h =? NULL).
  - intros w. by rewrite insert_run, Hchain, insert_chain_match.
Qed.

Lemma insert_present_cannot_fail_witness :
  wf example_table /\ present example_table 12 = true /\
  exists old l1 l2,
    stored_node example_table 12 = Some old /\
    chain_at example_table 12 = l1 ++ old :: l2 /\
    existsb (matching example_table 12) l1 = false /\
    forallb (λ e, negb (is_alloc e)) (destroy_events example_table old) = true /\
    forall w,
      polkit_hash_insert (Some example_table) 12 5 w
      = Some ((true, set_chain example_table (slot example_table 12)
                       (l1 ++ Node 12 5 :: l2)),
              World (alloc_plan w) (trace w ++ destroy_events example_table old)).
Proof.
  split; [split; [done|reflexivity]|]. split; [reflexivity|].
  apply (insert_present_cannot_fail example_table 12 5).
  - split; [done|reflexivity].
  - reflexivity.
Defined.

(** The replace path with an allocator that would refuse every request. *)
Example insert_present_without_memory :
  match polkit_hash_insert (Some example_table) 12 5 (World [false; false] []) with
  | Some ((r, h'), w') => Some (r, top_nodes h', w')
  | None => None
  end
  = Some (true, Some [[]; [Node 1 100; Node 12 5]; [Node 2 300];
                      []; []; []; []; []; []; []; []],
          World [false; false] [EvCall 7 12; EvCall 8 200]).
Proof. reflexivity. Qed.

(** ** Insert: allocation failure *)

(** C2: if the key is absent and the allocation of the new node fails, insert
    returns the failure result and hands back the table exactly as it was (no
    chain modified, no key or value changed); the only thing that happened is
    the failed allocation, so no destructor was invoked on anything. *)
Theorem insert_oom_leaves_table_unchanged
    (h : PolKitHash) (k v : ptr) (w : world) :
  wf h ->
  present h k = false ->
  next_alloc w = false ->
  polkit_hash_insert (Some h) k v w
  = Some ((false, h),
          World (tail (alloc_plan w)) (trace w ++ [EvAlloc BlkNode false])).
Proof.
  intros Hwf Habs Hoom. rewrite insert_absent_run by done. by rewrite Hoom.
Qed.

Lemma insert_oom_leaves_table_unchanged_witness :
  wf example_table /\ present example_table 23 = false /\
  next_alloc world_oom = false /\
  polkit_hash_insert (Some example_table) 23 5 world_oom
  = Some ((false, example_table),
          World (tail (alloc_plan world_oom))
                (trace world_oom ++ [EvAlloc BlkNode false])).
Proof.
  split; [split; [done|reflexivity]|]. do 2 (split; [reflexivity|]).
  apply (insert_oom_leaves_table_unchanged example_table 23 5 world_oom).
  - split; [done|reflexivity].
  - reflexivity.
  - reflexivity.
Defined.

(** Conversely, whenever insert reports failure the table is unchanged and
    the failure was a failed node allocation. *)
Lemma insert_failure_unchanged (h : PolKitHash) (k v : ptr) (w : world)
    (h' : PolKitHash) (w' : world) :
  wf h ->
  polkit_hash_insert (Some h) k v w = Some ((false, h'), w') ->
  h' = h /\ trace w' = trace w ++ [EvAlloc BlkNode false].
Proof.
  intros Hwf Hins.
  destruct (insert_failure_inv _ _ _ _ _ _ Hwf Hins) as [Habs Hoom].
  rewrite insert_absent_run, Hoom in Hins by done.
  by injection Hins as <- <-.
Qed.

(** ** Lookup *)

Lemma find_app_match {A} (f : A -> bool) (l1 l2 : list A) (x : A) :
  existsb f l1 = false -> f x = true -> List.find f (l1 ++ x :: l2) = Some x.
Proof.
  induction l1 as [|y l1 IH]; simpl; intros Hl1 Hx.
  - by rewrite Hx.
  - destruct (f y); [done|]. by apply IH.
Qed.

(** C9: the found flag is optional. With a null [found] pointer lookup returns
    the stored value, or NULL when the key is absent, and writes no flag; with
    a flag pointer it returns the same value and the flag tells whether the
    key is present. The world is untouched in both cases. *)
Theorem lookup_found_is_optional (h : PolKitHash) (k : ptr) (w : world) :
  wf h ->
  polkit_hash_lookup (Some h) k None w
  = Some ((default NULL (value <$> stored_node h k), None), w) /\
  forall flag,
    polkit_hash_lookup (Some h) k (Some flag) w
    = Some ((default NULL (value <$> stored_node h k), Some (present h k)), w).
Proof.
  intros Hwf. split; [|intros flag]; by rewrite lookup_run.
Qed.

Lemma lookup_found_is_optional_witness :
  wf example_table /\
  polkit_hash_lookup (Some example_table) 12 None world_ok
  = Some ((default NULL (value <$> stored_node example_table 12), None),
          world_ok) /\
  forall flag,
    polkit_hash_lookup (Some example_table) 12 (Some flag) world_ok
    = Some ((default NULL (value <$> stored_node example_table 12),
             Some (present example_table 12)), world_ok).
Proof.
  split; [split; [done|reflexivity]|].
  apply (lookup_found_is_optional example_table 12 world_ok).
  split; [done|reflexivity].
Defined.

Example lookup_examples :
  polkit_hash_lookup (Some example_table) 12 None world_ok
  = Some ((200, None), world_ok) /\
  polkit_hash_lookup (Some example_table) 12 (Some false) world_ok
  = Some ((200, Some true), world_ok) /\
  polkit_hash_lookup (Some example_table) 23 None world_ok
  = Some ((NULL, None), world_ok) /\
  polkit_hash_lookup (Some example_table) 23 (Some true) world_ok
  = Some ((NULL, Some false), world_ok).
Proof. repeat split. Qed.

(** C8: after an already-present key is re-inserted with a NULL value (which
    succeeds), looking that key up returns NULL with the found flag set to
    true, whereas looking up a key that is not present returns NULL with the
    flag set to false. The key is taken to equal itself under [equal_fn]. *)
Theorem reinsert_null_is_found (h : PolKitHash) (k : ptr) (w : world) :
  wf h ->
  present h k = true ->
  key_equal_func h k k = true ->
  exists h' w',
    polkit_hash_insert (Some h) k NULL w = Some ((true, h'), w') /\
    (forall flag w2,
       polkit_hash_lookup (Some h') k (Some flag) w2
       = Some ((NULL, Some true), w2)) /\
    (forall k' flag w2,
       present h' k' = false ->
       polkit_hash_lookup (Some h') k' (Some flag) w2
       = Some ((NULL, Some false), w2)).
Proof.
  intros Hwf Hp Hrefl. apply present_stored_node in Hp as [old Hold].
  destruct (insert_present_run h k NULL w old Hwf Hold)
    as (l1 & l2 & _ & Hl1 & _ & Hins).
  eexists _, _. split; [exact Hins|].
  assert (Hwf' : wf (set_chain h (slot h k) (l1 ++ Node k NULL :: l2)))
    by by apply set_chain_wf.
  split.
  - intros flag w2. rewrite lookup_run by done.
    unfold present, stored_node.
    rewrite set_chain_chain_at, decide_True by done.
    rewrite set_chain_matching, existsb_find.
    by rewrite (find_app_match _ l1 l2 (Node k NULL)).
  - intros k' flag w2 Habs. rewrite lookup_run, Habs by done.
    apply absent_stored_node in Habs. by rewrite Habs.
Qed.

Lemma reinsert_null_is_found_witness :
  wf example_table /\ present example_table 12 = true /\
  key_equal_func example_table 12 12 = true /\
  exists h' w',
    polkit_hash_insert (Some example_table) 12 NULL world_ok
    = Some ((true, h'), w') /\
    (forall flag w2,
       polkit_hash_lookup (Some h') 12 (Some flag) w2
       = Some ((NULL, Some true), w2)) /\
    (forall k' flag w2,
       present h' k' = false ->
       polkit_hash_lookup (Some h') k' (Some flag) w2
       = Some ((NULL, Some false), w2)).
Proof.
  split; [split; [done|reflexivity]|]. do 2 (split; [reflexivity|]).
  apply (reinsert_null_is_found example_table 12 world_ok).
  - split; [done|reflexivity].
  - reflexivity.
  - reflexivity.
Defined.

(** ** Null handles *)

(** C7: what each operation does with a null table handle. [polkit_hash_ref]
    and [polkit_hash_unref] report it through the [g_return_if_fail] check and
    return; [polkit_hash_insert] and [polkit_hash_lookup] have no such check
    and dereference the handle, which is undefined behaviour. *)
Theorem null_handle_behaviour (k v : ptr) (found : option bool) (w : world) :
  polkit_hash_ref None w
  = Some (None, World (alloc_plan w) (trace w ++ [EvCritical "hash != NULL"])) /\
  polkit_hash_unref None w
  = Some (None, World (alloc_plan w) (trace w ++ [EvCritical "hash != NULL"])) /\
  polkit_hash_insert None k v w = None /\
  polkit_hash_lookup None k found w = None.
Proof. repeat split. Qed.

(** Construction takes no table handle; its contract checks are on the hash
    and equality callbacks. *)
Lemma new_checks_callbacks (hf : option (ptr -> Z))
    (ef : option (ptr -> ptr -> bool)) (kd vd : ptr) (w : world) :
  hf = None \/ ef = None ->
  exists expr,
    polkit_hash_new hf ef kd vd w
    = Some (None, World (alloc_plan w) (trace w ++ [EvCritical expr])).
Proof.
  intros [-> | ->]; [|destruct hf]; by eexists.
Qed.

(** ** Reference counting *)

Lemma ref_run (h : PolKitHash) (w : world) :
  refcount h < INT_MAX ->
  polkit_hash_ref (Some h) w = Some (Some (set_refcount h (refcount h + 1)), w).
Proof.
  intros Hrc. unfold polkit_hash_ref, int_incr. rewrite bind_run.
  destruct (Z.leb_spec (refcount h + 1) INT_MAX); [done|lia].
Qed.

Lemma ref_times_run (n : nat) (h : PolKitHash) (w : world) :
  refcount h + Z.of_nat n <= INT_MAX ->
  ref_times n (Some h) w
  = Some (Some (set_refcount h (refcount h + Z.of_nat n)), w).
Proof.
  revert h. induction n as [|n IH]; intros h Hrc.
  - simpl. rewrite ret_run, Z.add_0_r. by destruct h.
  - cbn [ref_times]. rewrite bind_run, ref_run by lia.
    rewrite IH by (cbn [refcount set_refcount]; lia).
    replace (refcount h + Z.of_nat (S n)) with (refcount h + 1 + Z.of_nat n)
      by lia.
    reflexivity.
Qed.

Lemma unref_keep (h : PolKitHash) (w : world) :
  1 < refcount h ->
  polkit_hash_unref (Some h) w
  = Some (Some (set_refcount h (refcount h - 1)), w).
Proof.
  intros Hrc. unfold polkit_hash_unref, int_decr. rewrite bind_run.
  destruct (Z.leb_spec INT_MIN (refcount h - 1)); [|unfold INT_MIN in *; lia].
  rewrite ret_run. simpl.
  destruct (Z.ltb_spec 0 (refcount h - 1)); [done|lia].
Qed.

Lemma unref_times_keep (n : nat) (h : PolKitHash) (w : world) :
  Z.of_nat n < refcount h ->
  unref_times n (Some h) w
  = Some (Some (set_refcount h (refcount h - Z.of_nat n)), w).
Proof.
  revert h. induction n as [|n IH]; intros h Hrc.
  - simpl. rewrite ret_run, Z.sub_0_r. by destruct h.
  - cbn [unref_times]. rewrite bind_run, unref_keep by lia.
    rewrite IH by (cbn [refcount set_refcount]; lia).
    replace (refcount h - Z.of_nat (S n)) with (refcount h - 1 - Z.of_nat n)
      by lia.
    reflexivity.
Qed.

Lemma unref_times_last (n : nat) (hash : option PolKitHash) (w : world) :
  unref_times (S n) hash w = (unref_times n hash ≫= polkit_hash_unref) w.
Proof.
  revert hash w. induction n as [|n IH]; intros hash w.
  - simpl. rewrite !bind_run, ret_run.
    by destruct (polkit_hash_unref hash w) as [[? ?]|].
  - cbn [unref_times] in *. rewrite !bind_run.
    destruct (polkit_hash_unref hash w) as [[hash' w']|]; [|done].
    by rewrite IH, bind_run.
Qed.

Lemma unref_chain_run (h : PolKitHash) (chain : list PolKitHashNode) (w : world) :
  unref_chain h chain w
  = Some (tt, World (alloc_plan w)
                    (trace w ++ concat ((λ node, destroy_events h node
                                                 ++ [EvFree BlkNode]) <$> chain))).
Proof.
  revert w. induction chain as [|node next IH]; intros w; simpl.
  - by rewrite ret_run, world_app_nil.
  - rewrite bind_run, destroy_key_value_run, bind_run. simpl.
    rewrite IH. simpl. by rewrite <- !app_assoc.
Qed.

Lemma unref_buckets_run (h : PolKitHash) (buckets : list (list PolKitHashNode))
    (n todo : nat) (w : world) :
  (n + todo <= length buckets)%nat ->
  unref_buckets h buckets n todo w
  = Some (tt, World (alloc_plan w)
                    (trace w ++ concat ((λ node, destroy_events h node
                                                 ++ [EvFree BlkNode])
                                          <$> concat (take todo (drop n buckets))))).
Proof.
  revert n w. induction todo as [|todo IH]; intros n w Hlen; simpl.
  - by rewrite ret_run, world_app_nil.
  - destruct (lookup_lt_is_Some_2 buckets n) as [chain Hchain]; [lia|].
    rewrite Hchain, bind_run, unref_chain_run, IH by lia. simpl.
    rewrite (drop_S _ _ _ Hchain). simpl.
    by rewrite fmap_app, concat_app, <- !app_assoc.
Qed.

Lemma unref_final (h : PolKitHash) (w : world) :
  wf h ->
  refcount h = 1 ->
  polkit_hash_unref (Some h) w
  = Some (None, World (alloc_plan w) (trace w ++ teardown_events h)).
Proof.
  intros Hwf Hrc. destruct (wf_buckets h Hwf) as [Hb Hlen].
  unfold polkit_hash_unref, int_decr, teardown_events.
  rewrite Hrc, bind_run. simpl. rewrite Hb, !bind_run.
  rewrite unref_buckets_run by (simpl; lia). simpl.
  rewrite <- Hlen, drop_0, firstn_all, bind_run. simpl.
  change (destroy_events (set_refcount h (1 - 1))) with (destroy_events h).
  by rewrite <- !app_assoc.
Qed.

Lemma set_refcount_wf (h : PolKitHash) (rc : Z) : wf h -> wf (set_refcount h rc).
Proof. by intros [Hn Hlen]. Qed.

(** C5: on a table created with refcount 1, after [N] acquires (with [N + 1]
    within the range of the [int] counter) the first [N] releases run no
    destructor and free nothing: the world is untouched and the table keeps
    all its nodes. The [(N+1)]-th release is the one that tears the table
    down: for every live node, in bucket and chain order, the key destructor
    (if set) then the value destructor (if set) is invoked once and the node
    is freed, and the bucket array and the table are freed last. *)
Theorem destructors_run_at_last_release (h : PolKitHash) (N : nat) (w : world) :
  wf h ->
  refcount h = 1 ->
  Z.of_nat N < INT_MAX ->
  exists hN,
    ref_times N (Some h) w = Some (Some hN, w) /\
    (forall j, (j <= N)%nat ->
       exists hj, unref_times j (Some hN) w = Some (Some hj, w) /\
                  top_nodes hj = top_nodes h) /\
    unref_times (S N) (Some hN) w
    = Some (None, World (alloc_plan w) (trace w ++ teardown_events h)).
Proof.
  intros Hwf Hrc HN.
  exists (set_refcount h (refcount h + Z.of_nat N)). split; [|split].
  - apply ref_times_run. lia.
  - intros j Hj. eexists. split.
    + apply unref_times_keep. cbn [refcount set_refcount]. lia.
    + reflexivity.
  - rewrite unref_times_last, bind_run.
    rewrite unref_times_keep by (cbn [refcount set_refcount]; lia).
    rewrite unref_final; [done| |].
    + by do 2 apply set_refcount_wf.
    + cbn [refcount set_refcount]. lia.
Qed.

Lemma destructors_run_at_last_release_witness :
  wf example_table /\ refcount example_table = 1 /\ Z.of_nat 2 < INT_MAX /\
  exists hN,
    ref_times 2 (Some example_table) world_ok = Some (Some hN, world_ok) /\
    (forall j, (j <= 2)%nat ->
       exists hj, unref_times j (Some hN) world_ok = Some (Some hj, world_ok) /\
                  top_nodes hj = top_nodes example_table) /\
    unref_times 3 (Some hN) world_ok
    = Some (None, World (alloc_plan world_ok)
                        (trace world_ok ++ teardown_events example_table)).
Proof.
  split; [split; [done|reflexivity]|]. split; [reflexivity|]. split; [done|].
  apply (destructors_run_at_last_release example_table 2 world_ok).
  - split; [done|reflexivity].
  - reflexivity.
  - done.
Defined.

(** The teardown of the example table, evaluated: one acquire, then the
    second release destroys the three nodes, key before value. *)
Example unref_example :
  (hash ← polkit_hash_ref (Some example_table);
   hash ← polkit_hash_unref hash;
   polkit_hash_unref hash) world_ok
  = Some (None,
          World [] [EvCall 7 1; EvCall 8 100; EvFree BlkNode;
                    EvCall 7 12; EvCall 8 200; EvFree BlkNode;
                    EvCall 7 2; EvCall 8 300; EvFree BlkNode;
                    EvFree BlkTopNodes; EvFree BlkHash]).
Proof. reflexivity. Qed.

(** ** Action identifiers in memory *)

Lemma action_set_run (a : Action.PolKitAction) (action_id : option string)
    (w : world) :
  Action.libpolkit_action_set_action_id (Some a) action_id w
  = Some (Some (Action.Build (Action.refcount a) action_id),
          World (alloc_plan w)
                (trace w ++
                 (if Action.id a is Some old then [EvFree (BlkString old)] else []) ++
                 (if action_id is Some s then [EvAlloc (BlkString s) true] else []))).
Proof.
  destruct a as [rc [old|]], action_id as [s|], w as [plan tr];
    cbn; repeat (rewrite bind_run; cbn);
    by rewrite <- ?app_assoc, ?app_nil_r.
Qed.

Section ActionMemory.
Import ActionMem.

Lemma new_address_fresh (m : gmap Z string) :
  fresh_address m ≠ NULL /\ m !! fresh_address m = None.
Proof.
  unfold fresh_address.
  pose proof (is_fresh ({[NULL]} ∪ dom m)) as Hfresh.
  split; [|apply not_elem_of_dom]; set_solver.
Qed.

Lemma g_free_live (p : ptr) (s : string) (st : state) :
  p ≠ NULL ->
  strings st !! p = Some s ->
  g_free p st
  = Some (tt, State (World (alloc_plan (events st))
                           (trace (events st) ++ [EvFree (BlkString s)]))
                    (delete p (strings st))).
Proof.
  intros Hp Hs. unfold g_free.
  destruct (Z.eqb_spec p NULL) as [|_]; [done|].
  unfold mbind, S_bind, string_at. rewrite Hs. reflexivity.
Qed.

Lemma g_strdup_live (p : ptr) (s : string) (st : state) :
  p ≠ NULL ->
  strings st !! p = Some s ->
  g_strdup p st
  = Some (fresh_address (strings st),
          State (World (alloc_plan (events st))
                       (trace (events st) ++ [EvAlloc (BlkString s) true]))
                (<[fresh_address (strings st) := s]> (strings st))).
Proof.
  intros Hp Hs. unfold g_strdup.
  destruct (Z.eqb_spec p NULL) as [|_]; [done|].
  unfold mbind, S_bind, string_at. rewrite Hs. reflexivity.
Qed.

Lemma g_strdup_dangling (p : ptr) (st : state) :
  p ≠ NULL -> strings st !! p = None -> g_strdup p st = None.
Proof.
  intros Hp Hs. unfold g_strdup.
  destruct (Z.eqb_spec p NULL) as [|_]; [done|].
  unfold mbind, S_bind, string_at. by rewrite Hs.
Qed.

Lemma set_unfold (a : PolKitAction) (p : ptr) (st : state) :
  libpolkit_action_set_action_id (Some a) p st
  = match (if negb (id a =? NULL) then g_free (id a) else mret tt) st with
    | Some (_, st1) =>
        match g_strdup p st1 with
        | Some (q, st2) => Some (Some (Build (refcount a) q), st2)
        | None => None
        end
    | None => None
    end.
Proof.
  unfold libpolkit_action_set_action_id, mbind, S_bind.
  destruct ((if negb (id a =? NULL) then g_free (id a) else mret tt) st)
    as [[[] st1]|]; [|done].
  by destruct (g_strdup p st1) as [[q st2]|].
Qed.

(** One call of set with a pointer of the caller's: NULL, or the address of a
    live string that is not the one the action holds. *)
Lemma set_step (a : PolKitAction) (p : ptr) (st : state) :
  id a = NULL \/ is_Some (strings st !! id a) ->
  p = NULL \/ (p ≠ id a /\ is_Some (strings st !! p)) ->
  exists a' st',
    libpolkit_action_set_action_id (Some a) p st = Some (Some a', st') /\
    refcount a' = refcount a /\
    (id a' = NULL \/ is_Some (strings st' !! id a')) /\
    (p = NULL -> id a' = NULL) /\
    (p ≠ NULL -> id a' ≠ NULL /\ strings st' !! id a' = strings st !! p) /\
    (forall c, c ≠ NULL -> c ≠ id a -> is_Some (strings st !! c) ->
               c ≠ id a' /\ strings st' !! c = strings st !! c).
Proof.
  intros Hid Hp. rewrite set_unfold.
  assert (Hfree : exists st1,
             (if negb (id a =? NULL) then g_free (id a) else mret tt) st
             = Some (tt, st1) /\
             forall c, c ≠ id a -> strings st1 !! c = strings st !! c).
  { destruct (Z.eqb_spec (id a) NULL) as [Hnull|Hlive]; simpl.
    - by exists st.
    - destruct Hid as [|[old Hold]]; [done|].
      rewrite (g_free_live _ _ _ Hlive Hold). eexists. split; [done|].
      intros c Hc. simpl. by rewrite lookup_delete_ne. }
  destruct Hfree as (st1 & -> & Hst1).
  destruct (decide (p = NULL)) as [->|Hpn].
  - exists (Build (refcount a) NULL), st1.
    split; [reflexivity|]. split; [reflexivity|]. split; [by left|].
    split; [done|]. split; [done|].
    intros c Hc Hca _. split; [done|by apply Hst1].
  - destruct Hp as [|[Hpa [s Hs]]]; [done|].
    assert (Hs1 : strings st1 !! p = Some s) by by rewrite Hst1.
    rewrite (g_strdup_live _ _ _ Hpn Hs1).
    destruct (new_address_fresh (strings st1)) as [Hq0 Hqfresh].
    eexists _, _. split; [reflexivity|]. cbn [refcount id strings events].
    split; [reflexivity|].
    split; [right; rewrite lookup_insert_eq; by eexists|].
    split; [done|].
    split; [intros _; split; [done|by rewrite lookup_insert_eq, Hs]|].
    intros c Hc Hca [x Hx].
    assert (Hne : c ≠ fresh_address (strings st1)).
    { intros ->. rewrite <- Hst1 in Hx by done. by rewrite Hqfresh in Hx. }
    split; [done|]. rewrite lookup_insert_ne by done. by apply Hst1.
Qed.

(** For a pointer of the caller's, set on identifiers in memory does what set
    on identifiers by content describes: the same events, and the resulting
    actions correspond. *)
Lemma set_by_content_describes (am : PolKitAction) (av : Action.PolKitAction)
    (p : ptr) (st : state) :
  represents st am av ->
  p = NULL \/ (p ≠ id am /\ is_Some (strings st !! p)) ->
  exists am' st' av',
    libpolkit_action_set_action_id (Some am) p st = Some (Some am', st') /\
    Action.libpolkit_action_set_action_id
      (Some av) (if p =? NULL then None else strings st !! p) (events st)
    = Some (Some av', events st') /\
    represents st' am' av'.
Proof.
  intros (Hrc & Hidv & Hid) Hp. rewrite set_unfold, action_set_run.
  destruct (Z.eqb_spec (id am) NULL) as [Hnull|Hlive]; cbn [negb].
  - rewrite Hidv. destruct (Z.eqb_spec p NULL) as [->|Hpn].
    + eexists _, _, _. split; [reflexivity|]. simpl.
      rewrite app_nil_r. destruct st as [[plan tr] m]. split; [reflexivity|].
      split; [done|]. split; [done|by left].
    + destruct Hp as [|[_ [s Hs]]]; [done|].
      cbn [mret S_ret].
      rewrite (g_strdup_live _ _ _ Hpn Hs), Hs.
      destruct (new_address_fresh (strings st)) as [Hq0 _].
      eexists _, _, _. split; [reflexivity|]. split; [reflexivity|].
      split; [done|]. cbn [id strings Action.id].
      destruct (Z.eqb_spec (fresh_address (strings st)) NULL); [done|].
      rewrite lookup_insert_eq. split; [done|right; by eexists].
  - destruct Hid as [|[old Hold]]; [done|]. rewrite Hold in Hidv.
    rewrite Hidv, (g_free_live _ _ _ Hlive Hold).
    destruct (Z.eqb_spec p NULL) as [->|Hpn].
    + eexists _, _, _. split; [reflexivity|]. simpl.
      split; [reflexivity|]. split; [done|]. split; [done|by left].
    + destruct Hp as [|[Hpa [s Hs]]]; [done|].
      rewrite (g_strdup_live p s); [|done|simpl; by rewrite lookup_delete_ne].
      rewrite Hs. cbn [events strings].
      destruct (new_address_fresh (delete (id am) (strings st))) as [Hq0 _].
      eexists _, _, _. split; [reflexivity|]. cbn [events].
      cbn [alloc_plan trace]. rewrite <- app_assoc. split; [reflexivity|].
      split; [done|]. cbn [id strings Action.id].
      destruct (Z.eqb_spec (fresh_address (delete (id am) (strings st))) NULL);
        [done|].
      rewrite lookup_insert_eq. split; [done|right; by eexists].
Qed.

(** Handing the action the pointer it stores: the string is freed and then
    read. *)
Lemma set_aliased_undefined (a : PolKitAction) (st : state) :
  id a ≠ NULL ->
  is_Some (strings st !! id a) ->
  libpolkit_action_set_action_id (Some a) (id a) st = None.
Proof.
  intros Hlive [old Hold]. rewrite set_unfold.
  destruct (Z.eqb_spec (id a) NULL) as [|_]; [done|]. simpl.
  rewrite (g_free_live _ _ _ Hlive Hold).
  rewrite g_strdup_dangling; [done|done|]. simpl. apply lookup_delete_eq.
Qed.

Lemma get_run (a : PolKitAction) (out : ptr) (st : state) :
  libpolkit_action_get_action_id (Some a) (Some out) st
  = Some (if id a =? NULL then (false, Some out) else (true, Some (id a)), st).
Proof.
  unfold libpolkit_action_get_action_id. by destruct (id a =? NULL).
Qed.

(** C10: [libpolkit_action_get_action_id] returns false and leaves the output
    variable as it was when no identifier is stored, and returns true with
    the stored identifier otherwise. [libpolkit_action_set_action_id] stores
    a copy of a string of the caller's and frees the previous copy, but it
    does not always replace the stored identifier: handed the pointer that
    get has just returned, it frees the stored string and then duplicates the
    freed pointer, which is undefined. *)
Theorem set_stored_identifier_reads_freed_memory (c : ptr) (s : string)
    (st : state) :
  c ≠ NULL ->
  strings st !! c = Some s ->
  (forall rc out st', libpolkit_action_get_action_id
                        (Some (Build rc NULL)) (Some out) st'
                      = Some ((false, Some out), st')) /\
  (exists a st1,
     (libpolkit_action_new
        ≫= λ action, libpolkit_action_set_action_id action c) st
     = Some (Some a, st1) /\
     id a ≠ NULL /\ strings st1 !! id a = Some s /\
     libpolkit_action_get_action_id (Some a) (Some NULL) st1
     = Some ((true, Some (id a)), st1) /\
     libpolkit_action_set_action_id (Some a) (id a) st1 = None) /\
  set_get_set c st = None.
Proof.
  intros Hc Hs. split; [done|].
  set (st0 := State (World (alloc_plan (events st))
                           (trace (events st) ++ [EvAlloc BlkAction true]))
                    (strings st)).
  destruct (set_step (Build 1 NULL) c st0) as
    (a & st1 & Hset & _ & _ & _ & Hcopy & _);
    [by left|right; by split; [|eexists]|].
  destruct (Hcopy Hc) as [Hida Hcontent]. cbn [strings st0] in Hcontent.
  rewrite Hs in Hcontent.
  assert (Hget : libpolkit_action_get_action_id (Some a) (Some NULL) st1
                 = Some ((true, Some (id a)), st1)).
  { rewrite get_run. by destruct (Z.eqb_spec (id a) NULL). }
  assert (Hbad : libpolkit_action_set_action_id (Some a) (id a) st1 = None)
    by (apply set_aliased_undefined; [done|by eexists]).
  split.
  - exists a, st1. by repeat split.
  - unfold set_get_set, mbind, S_bind.
    change (libpolkit_action_new st) with (Some (Some (Build 1 NULL), st0)).
    cbv beta iota. rewrite Hset. cbv beta iota. rewrite Hget.
    exact Hbad.
Qed.

Lemma set_stored_identifier_reads_freed_memory_witness :
  100 ≠ NULL /\
  strings (State world_ok {[100 := "org.example.a"]}) !! 100
  = Some "org.example.a" /\
  set_get_set 100 (State world_ok {[100 := "org.example.a"]}) = None.
Proof.
  split; [done|]. split; [reflexivity|].
  apply (set_stored_identifier_reads_freed_memory 100 "org.example.a"
           (State world_ok {[100 := "org.example.a"]})).
  - done.
  - reflexivity.
Defined.

Lemma set_all_valid (ids : list ptr) (last_id : ptr) (a : PolKitAction)
    (st : state) :
  id a = NULL \/ is_Some (strings st !! id a) ->
  Forall (λ p, p = NULL \/ (p ≠ id a /\ is_Some (strings st !! p)))
         (ids ++ [last_id]) ->
  exists a' st',
    set_all (ids ++ [last_id]) (Some a) st = Some (Some a', st') /\
    refcount a' = refcount a /\
    (last_id = NULL -> id a' = NULL) /\
    (last_id ≠ NULL ->
     id a' ≠ NULL /\ strings st' !! id a' = strings st !! last_id).
Proof.
  revert a st. induction ids as [|p ids IH]; intros a st Hid Hall.
  - cbn [app] in Hall. apply Forall_cons in Hall as [Hlast _].
    destruct (set_step a last_id st Hid Hlast)
      as (a' & st' & Hset & Hrc & _ & Hnull & Hcopy & _).
    exists a', st'. cbn [app set_all]. unfold mbind, S_bind. rewrite Hset.
    done.
  - cbn [app] in Hall. apply Forall_cons in Hall as [Hp Hrest].
    destruct (set_step a p st Hid Hp)
      as (a1 & st1 & Hset & Hrc & Hid1 & _ & _ & Hframe).
    assert (Hvalid : forall q, q = NULL \/ (q ≠ id a /\ is_Some (strings st !! q)) ->
                       q = NULL \/ (q ≠ id a1 /\ is_Some (strings st1 !! q))
                       /\ strings st1 !! q = strings st !! q).
    { intros q [->|[Hqa Hq]]; [by left|].
      destruct (decide (q = NULL)) as [->|Hq0]; [by left|]. right.
      destruct (Hframe q Hq0 Hqa Hq) as [Hq1 Heq]. by rewrite Heq. }
    destruct (IH a1 st1 Hid1) as (a' & st' & Hall' & Hrc' & Hnull & Hcopy).
    { eapply Forall_impl; [exact Hrest|]. intros q Hq.
      destruct (Hvalid q Hq) as [|[? _]]; [by left|by right]. }
    exists a', st'. cbn [app set_all]. unfold mbind, S_bind. rewrite Hset.
    split; [exact Hall'|]. split; [congruence|]. split; [done|].
    intros Hlast. destruct (Hcopy Hlast) as [Hne Hcontent].
    split; [done|]. rewrite Hcontent.
    assert (Hl : last_id = NULL \/ (last_id ≠ id a /\ is_Some (strings st !! last_id))).
    { rewrite Forall_app, Forall_singleton in Hrest. by destruct Hrest. }
    by destruct (Hvalid _ Hl) as [|[_ ?]].
Qed.

(** X13: after any non-empty sequence of [libpolkit_action_set_action_id]
    calls, each with NULL or a live string of the caller's (not the one the
    action holds), [libpolkit_action_get_action_id] answers with the
    identifier of the last call: true and a pointer to a live copy of that
    string, or false with the output variable untouched when the last call
    passed NULL. No call fails and the reference count is not touched. *)
Theorem action_get_returns_last_set (a : PolKitAction) (ids : list ptr)
    (last_id : ptr) (out : ptr) (st : state) :
  id a = NULL \/ is_Some (strings st !! id a) ->
  Forall (λ p, p = NULL \/ (p ≠ id a /\ is_Some (strings st !! p)))
         (ids ++ [last_id]) ->
  exists a' st',
    set_all (ids ++ [last_id]) (Some a) st = Some (Some a', st') /\
    refcount a' = refcount a /\
    if last_id =? NULL
    then libpolkit_action_get_action_id (Some a') (Some out) st'
         = Some ((false, Some out), st')
    else exists q,
           libpolkit_action_get_action_id (Some a') (Some out) st'
           = Some ((true, Some q), st') /\
           q ≠ NULL /\ strings st' !! q = strings st !! last_id.
Proof.
  intros Hid Hall.
  destruct (set_all_valid ids last_id a st Hid Hall)
    as (a' & st' & Hrun & Hrc & Hnull & Hcopy).
  exists a', st'. split; [done|]. split; [done|]. rewrite get_run.
  destruct (Z.eqb_spec last_id NULL) as [Hl|Hl].
  - by rewrite (Hnull Hl).
  - destruct (Hcopy Hl) as [Hne Hcontent]. exists (id a').
    by destruct (Z.eqb_spec (id a') NULL).
Qed.

Lemma action_get_returns_last_set_witness :
  (id (Build 1 NULL) = NULL
   \/ is_Some (strings (State world_ok {[100 := "org.a"; 200 := "org.b"]})
               !! id (Build 1 NULL))) /\
  Forall (λ p, p = NULL \/
               (p ≠ id (Build 1 NULL) /\
                is_Some (strings (State world_ok
                                    {[100 := "org.a"; 200 := "org.b"]}) !! p)))
         ([100; NULL] ++ [200]) /\
  exists a' st',
    set_all ([100; NULL] ++ [200]) (Some (Build 1 NULL))
            (State world_ok {[100 := "org.a"; 200 := "org.b"]})
    = Some (Some a', st') /\
    refcount a' = refcount (Build 1 NULL) /\
    if 200 =? NULL
    then libpolkit_action_get_action_id (Some a') (Some 0) st'
         = Some ((false, Some 0), st')
    else exists q,
           libpolkit_action_get_action_id (Some a') (Some 0) st'
           = Some ((true, Some q), st') /\
           q ≠ NULL /\
           strings st' !! q
           = strings (State world_ok {[100 := "org.a"; 200 := "org.b"]}) !! 200.
Proof.
  split; [by left|].
  assert (Hall : Forall (λ p, p = NULL \/
               (p ≠ id (Build 1 NULL) /\
                is_Some (strings (State world_ok
                                    {[100 := "org.a"; 200 := "org.b"]}) !! p)))
         ([100; NULL] ++ [200])).
  { cbn [app]. apply Forall_cons.
    split; [right; split; [done|eexists; reflexivity]|].
    apply Forall_cons. split; [by left|]. apply Forall_cons.
    split; [right; split; [done|eexists; reflexivity]|]. constructor. }
  split; [exact Hall|].
  apply (action_get_returns_last_set (Build 1 NULL) [100; NULL] 200 0
           (State world_ok {[100 := "org.a"; 200 := "org.b"]})).
  - by left.
  - exact Hall.
Defined.

End ActionMemory.

(** ** What the operations do to a table *)

Lemma new_shape (hf : ptr -> Z) (ef : ptr -> ptr -> bool) (kd vd : ptr)
    (w : world) (h : PolKitHash) (w' : world) :
  polkit_hash_new (Some hf) (Some ef) kd vd w = Some (Some h, w') ->
  h = Table 1 11 (Some (replicate 11 [])) hf ef kd vd.
Proof.
  unfold polkit_hash_new. rewrite bind_run, p_new0_run.
  destruct (next_alloc w); [|done].
  rewrite bind_run, p_new0_run. cbn [alloc_plan trace].
  match goal with |- context [next_alloc ?w1] => destruct (next_alloc w1) end.
  - by intros [= <- _].
  - rewrite bind_run.
    match goal with
    | |- context [polkit_hash_unref ?a ?b] =>
        by destruct (polkit_hash_unref a b) as [[? ?]|]
    end.
Qed.

Lemma ref_shape (h : PolKitHash) (w : world) (h' : PolKitHash) (w' : world) :
  polkit_hash_ref (Some h) w = Some (Some h', w') ->
  exists rc, h' = set_refcount h rc.
Proof.
  unfold polkit_hash_ref, int_incr. rewrite bind_run.
  destruct (refcount h + 1 <=? INT_MAX); [|done].
  intros [= <- _]. by eexists.
Qed.

Lemma unref_shape (h : PolKitHash) (w : world) (h' : PolKitHash) (w' : world) :
  polkit_hash_unref (Some h) w = Some (Some h', w') ->
  exists rc, h' = set_refcount h rc.
Proof.
  unfold polkit_hash_unref, int_decr. rewrite bind_run.
  destruct (INT_MIN <=? refcount h - 1); [|done].
  rewrite ret_run. cbn [refcount set_refcount].
  destruct (0 <? refcount h - 1).
  - intros [= <- _]. by eexists.
  - rewrite !bind_run.
    repeat match goal with
           | |- context [match ?m with Some _ => _ | None => _ end] =>
               destruct m as [[? ?]|]; [|done]
           end.
    done.
Qed.

Lemma insert_cases (h : PolKitHash) (k v : ptr) (w : world) (r : bool)
    (h' : PolKitHash) (w' : world) :
  wf h ->
  polkit_hash_insert (Some h) k v w = Some ((r, h'), w') ->
  (exists old l1 l2,
     chain_at h k = l1 ++ old :: l2 /\
     existsb (matching h k) l1 = false /\
     matching h k old = true /\
     r = true /\ h' = set_chain h (slot h k) (l1 ++ Node k v :: l2)) \/
  (present h k = false /\ r = true /\
   h' = set_chain h (slot h k) (chain_at h k ++ [Node k v])) \/
  (present h k = false /\ r = false /\ h' = h).
Proof.
  intros Hwf Hins. destruct (present h k) eqn:Hp.
  - left. apply present_stored_node in Hp as [old Hold].
    destruct (insert_present_run h k v w old Hwf Hold)
      as (l1 & l2 & Hchain & Hl1 & Hm & Heq).
    rewrite Heq in Hins. injection Hins as <- <- _.
    by exists old, l1, l2.
  - right. rewrite insert_absent_run in Hins by done.
    injection Hins as <- <- _. destruct (next_alloc w); [left|right]; done.
Qed.

(** ** Chains without equal keys *)

Lemma existsb_false_Forall {A} (f : A -> bool) (l : list A) :
  existsb f l = false <-> Forall (λ x, f x = false) l.
Proof.
  induction l as [|x l IH]; simpl.
  - split; [by constructor|done].
  - rewrite orb_false_iff, IH, Forall_cons. done.
Qed.

Lemma chain_distinct_app (ef : ptr -> ptr -> bool)
    (l1 l2 : list PolKitHashNode) :
  chain_distinct ef (l1 ++ l2) <->
  chain_distinct ef l1 /\ chain_distinct ef l2 /\
  Forall (λ x, Forall (λ y, ef (key x) (key y) = false) l2) l1.
Proof.
  induction l1 as [|x l1 IH]; simpl.
  - split; [intros ?; by repeat split|by intros (_ & ? & _)].
  - rewrite Forall_app, IH, Forall_cons. tauto.
Qed.

Lemma chain_distinct_lookup (ef : ptr -> ptr -> bool)
    (chain : list PolKitHashNode) (a b : nat) (n1 n2 : PolKitHashNode) :
  equal_symmetric ef ->
  chain_distinct ef chain ->
  chain !! a = Some n1 ->
  chain !! b = Some n2 ->
  ef (key n1) (key n2) = true ->
  a = b.
Proof.
  intros Hsym. revert a b.
  induction chain as [|n chain IH]; intros a b Hd Ha Hb Heq; [done|].
  destruct Hd as [Hn Hd]. destruct a as [|a], b as [|b]; simpl in *.
  - done.
  - injection Ha as ->. apply list_elem_of_lookup_2 in Hb.
    rewrite Forall_forall in Hn. specialize (Hn _ Hb). congruence.
  - injection Hb as ->. apply list_elem_of_lookup_2 in Ha.
    rewrite Forall_forall in Hn. specialize (Hn _ Ha).
    apply Hsym in Heq. congruence.
  - f_equal. by apply IH.
Qed.

Lemma chain_distinct_replace (h : PolKitHash) (k v : ptr)
    (old : PolKitHashNode) (l1 l2 : list PolKitHashNode) :
  equal_symmetric (key_equal_func h) ->
  equal_transitive (key_equal_func h) ->
  chain_distinct (key_equal_func h) (l1 ++ old :: l2) ->
  existsb (matching h k) l1 = false ->
  matching h k old = true ->
  chain_distinct (key_equal_func h) (l1 ++ Node k v :: l2).
Proof.
  intros Hsym Htrans Hd Hl1 Hold. unfold matching in *.
  apply existsb_false_Forall in Hl1.
  apply chain_distinct_app in Hd as (Hd1 & [Hold2 Hd2] & Hcross).
  apply chain_distinct_app. split; [done|]. split; [split; [|done]|].
  - rewrite Forall_forall in Hold2 |- *. intros m Hm. simpl.
    destruct (key_equal_func h k (key m)) eqn:Hkm; [|done].
    rewrite <- (Hold2 m Hm). symmetry.
    eapply Htrans; [|exact Hkm]. by apply Hsym.
  - rewrite Forall_forall in Hcross, Hl1 |- *. intros x Hx.
    specialize (Hcross x Hx). apply Forall_cons in Hcross as [_ Hx2].
    apply Forall_cons. split; [|done]. simpl.
    destruct (key_equal_func h (key x) k) eqn:Hxk; [|done].
    apply Hsym in Hxk. by rewrite (Hl1 x Hx) in Hxk.
Qed.

Lemma chain_distinct_append (h : PolKitHash) (k v : ptr)
    (chain : list PolKitHashNode) :
  equal_symmetric (key_equal_func h) ->
  chain_distinct (key_equal_func h) chain ->
  existsb (matching h k) chain = false ->
  chain_distinct (key_equal_func h) (chain ++ [Node k v]).
Proof.
  intros Hsym Hd Habs. unfold matching in *.
  apply existsb_false_Forall in Habs.
  apply chain_distinct_app. split; [done|]. split; [by repeat constructor|].
  rewrite Forall_forall in Habs |- *. intros x Hx.
  apply Forall_cons. split; [|by constructor]. simpl.
  destruct (key_equal_func h (key x) k) eqn:Hxk; [|done].
  apply Hsym in Hxk. by rewrite (Habs x Hx) in Hxk.
Qed.

(** ** The bucket invariants *)

Lemma new_table_wf (hf : ptr -> Z) (ef : ptr -> ptr -> bool) (kd vd : ptr) :
  wf (Table 1 11 (Some (replicate 11 [])) hf ef kd vd).
Proof. split; [done|reflexivity]. Qed.

Lemma new_table_chain (hf : ptr -> Z) (ef : ptr -> ptr -> bool) (kd vd : ptr)
    (i : nat) (chain : list PolKitHashNode) :
  buckets_of (Table 1 11 (Some (replicate 11 [])) hf ef kd vd) !! i = Some chain ->
  chain = [].
Proof. intros Hchain. by apply lookup_replicate in Hchain as [-> _]. Qed.

Lemma set_chain_lookup (h : PolKitHash) (k : ptr)
    (chain' : list PolKitHashNode) (i : nat) (chain : list PolKitHashNode) :
  wf h ->
  buckets_of (set_chain h (slot h k) chain') !! i = Some chain ->
  (i = slot h k /\ chain = chain') \/ buckets_of h !! i = Some chain.
Proof.
  intros Hwf. rewrite set_chain_buckets.
  destruct (decide (slot h k = i)) as [<-|Hne].
  - rewrite list_lookup_insert_eq.
    + intros [= <-]. by left.
    + destruct (wf_buckets h Hwf) as [_ ->]. by apply slot_lt.
  - rewrite list_lookup_insert_ne by done. by right.
Qed.

Lemma slots_inv_insert (h : PolKitHash) (k v : ptr) (w : world) (r : bool)
    (h' : PolKitHash) (w' : world) :
  wf h ->
  slots_inv h ->
  polkit_hash_insert (Some h) k v w = Some ((r, h'), w') ->
  slots_inv h'.
Proof.
  intros Hwf Hinv Hins.
  pose proof (Hinv _ _ (wf_chain_at h k Hwf)) as Hslot.
  assert (Hset : forall chain',
             Forall (λ node, slot h (key node) = slot h k) chain' ->
             slots_inv (set_chain h (slot h k) chain')).
  { intros chain' Hc i chain Hchain.
    destruct (set_chain_lookup _ _ _ _ _ Hwf Hchain) as [[-> ->]|Hold];
      [exact Hc|exact (Hinv _ _ Hold)]. }
  destruct (insert_cases _ _ _ _ _ _ _ Hwf Hins)
    as [(old & l1 & l2 & Hchain & _ & _ & _ & ->)
       |[(_ & _ & ->)|(_ & _ & ->)]]; [| |done].
  - apply Hset. rewrite Hchain in Hslot.
    apply Forall_app in Hslot as [H1 H2]. apply Forall_cons in H2 as [_ H2].
    apply Forall_app. split; [done|]. by apply Forall_cons.
  - apply Hset, Forall_app. split; [done|]. by repeat constructor.
Qed.

Lemma distinct_inv_insert (h : PolKitHash) (k v : ptr) (w : world) (r : bool)
    (h' : PolKitHash) (w' : world) :
  equal_symmetric (key_equal_func h) ->
  equal_transitive (key_equal_func h) ->
  wf h ->
  distinct_inv h ->
  polkit_hash_insert (Some h) k v w = Some ((r, h'), w') ->
  distinct_inv h'.
Proof.
  intros Hsym Htrans Hwf Hinv Hins.
  pose proof (Hinv _ _ (wf_chain_at h k Hwf)) as Hd.
  assert (Hset : forall chain',
             chain_distinct (key_equal_func h) chain' ->
             distinct_inv (set_chain h (slot h k) chain')).
  { intros chain' Hc i chain Hchain.
    destruct (set_chain_lookup _ _ _ _ _ Hwf Hchain) as [[-> ->]|Hold];
      [exact Hc|exact (Hinv _ _ Hold)]. }
  destruct (insert_cases _ _ _ _ _ _ _ Hwf Hins)
    as [(old & l1 & l2 & Hchain & Hl1 & Hold & _ & ->)
       |[(Habs & _ & ->)|(_ & _ & ->)]]; [| |done].
  - apply Hset. rewrite Hchain in Hd. by eapply chain_distinct_replace.
  - apply Hset. by apply chain_distinct_append.
Qed.

(** Every reachable table is well formed, carries the callbacks it was built
    with, and has every node in the bucket of its key, whatever the callbacks
    do. *)
Lemma reachable_slots (hf : ptr -> Z) (ef : ptr -> ptr -> bool) (kd vd : ptr)
    (h : PolKitHash) :
  reachable hf ef kd vd h ->
  wf h /\ slots_inv h /\ hash_func h = hf /\ key_equal_func h = ef.
Proof.
  induction 1 as [w h w' Hnew
                 |h k v w r h' w' _ (Hwf & Hinv & Hhf & Hef) Hins
                 |h w h' w' _ (Hwf & Hinv & Hhf & Hef) Hop
                 |h w h' w' _ (Hwf & Hinv & Hhf & Hef) Hop].
  - apply new_shape in Hnew as ->. split; [apply new_table_wf|].
    split; [|done]. intros i chain Hchain.
    apply new_table_chain in Hchain as ->. constructor.
  - split; [by eapply insert_wf|]. split; [by eapply slots_inv_insert|].
    destruct (insert_cases _ _ _ _ _ _ _ Hwf Hins)
      as [(? & ? & ? & _ & _ & _ & _ & ->)|[(_ & _ & ->)|(_ & _ & ->)]];
      done.
  - apply ref_shape in Hop as [rc ->].
    split; [by apply set_refcount_wf|done].
  - apply unref_shape in Hop as [rc ->].
    split; [by apply set_refcount_wf|done].
Qed.

(** Under a symmetric and transitive [equal_fn] no chain of a reachable table
    holds two equal keys. *)
Lemma reachable_distinct (hf : ptr -> Z) (ef : ptr -> ptr -> bool) (kd vd : ptr)
    (h : PolKitHash) :
  equal_symmetric ef ->
  equal_transitive ef ->
  reachable hf ef kd vd h ->
  distinct_inv h.
Proof.
  intros Hsym Htrans.
  induction 1 as [w h w' Hnew
                 |h k v w r h' w' Hreach Hinv Hins
                 |h w h' w' _ Hinv Hop
                 |h w h' w' _ Hinv Hop].
  - apply new_shape in Hnew as ->. intros i chain Hchain.
    by apply new_table_chain in Hchain as ->.
  - destruct (reachable_slots _ _ _ _ _ Hreach) as (Hwf & _ & _ & Hef).
    eapply distinct_inv_insert; [| |exact Hwf|exact Hinv|exact Hins];
      by rewrite Hef.
  - by apply ref_shape in Hop as [rc ->].
  - by apply unref_shape in Hop as [rc ->].
Qed.

(** In a table that satisfies the slot invariant, with a hash that respects
    [equal_fn], a node anywhere in the table whose key matches [k] makes [k]
    present. *)
Lemma stored_anywhere_present (h : PolKitHash) (k : ptr) (i a : nat)
    (node : PolKitHashNode) :
  wf h ->
  slots_inv h ->
  hash_respects_equal (hash_func h) (key_equal_func h) ->
  node_at h i a = Some node ->
  key_equal_func h k (key node) = true ->
  present h k = true.
Proof.
  intros Hwf Hinv Hhash Hnode Heq. unfold node_at in Hnode.
  destruct (buckets_of h !! i) as [chain|] eqn:Hchain; [|done].
  simpl in Hnode. apply list_elem_of_lookup_2 in Hnode.
  pose proof (Hinv _ _ Hchain) as Hslot. rewrite Forall_forall in Hslot.
  assert (slot h k = i) as Hk.
  { rewrite <- (Hslot _ Hnode). unfold slot. by rewrite (Hhash _ _ Heq). }
  unfold present, chain_at. rewrite Hk, Hchain. simpl.
  apply existsb_exists. exists node. split; [by apply list_elem_of_In|done].
Qed.

(** C4: in every table reachable from construction (through inserts,
    successful or not, acquires and non-final releases), every live node sits
    in the bucket whose index is [hash_fn(key) mod bucket_count]. If moreover
    the callbacks honour their contract ([equal_fn] symmetric and transitive,
    equal keys having equal hashes), a key occurs at most once: two live nodes
    whose keys are equal under [equal_fn] are the same node (same bucket, same
    position in the chain), and so are two live nodes that both match one
    probe key. *)
Theorem reachable_buckets_consistent_no_duplicates
    (hf : ptr -> Z) (ef : ptr -> ptr -> bool) (kd vd : ptr) (h : PolKitHash) :
  reachable hf ef kd vd h ->
  (forall i a node,
     node_at h i a = Some node ->
     Z.of_nat i = to_uint (hash_func h (key node)) mod num_top_nodes h) /\
  (equal_symmetric ef -> equal_transitive ef -> hash_respects_equal hf ef ->
   (forall i a n1 j b n2,
      node_at h i a = Some n1 ->
      node_at h j b = Some n2 ->
      key_equal_func h (key n1) (key n2) = true ->
      i = j /\ a = b) /\
   (forall k i a n1 j b n2,
      node_at h i a = Some n1 ->
      node_at h j b = Some n2 ->
      key_equal_func h k (key n1) = true ->
      key_equal_func h k (key n2) = true ->
      i = j /\ a = b)).
Proof.
  intros Hreach.
  destruct (reachable_slots _ _ _ _ _ Hreach) as (Hwf & Hinv & Hhf & Hef).
  assert (Hslot : forall i a node, node_at h i a = Some node ->
                                   slot h (key node) = i).
  { intros i a node Hnode. unfold node_at in Hnode.
    destruct (buckets_of h !! i) as [chain|] eqn:Hchain; [|done].
    pose proof (Hinv _ _ Hchain) as Hs. rewrite Forall_forall in Hs.
    apply Hs. by eapply list_elem_of_lookup_2. }
  split.
  { intros i a node Hnode. rewrite <- (Hslot _ _ _ Hnode). unfold slot.
    destruct Hwf as [Hn _].
    pose proof (Z.mod_pos_bound (to_uint (hash_func h (key node)))
                  (num_top_nodes h)).
    lia. }
  intros Hsym Htrans Hhash.
  pose proof (reachable_distinct _ _ _ _ _ Hsym Htrans Hreach) as Hdist.
  assert (Hnodup : forall i a n1 j b n2,
             node_at h i a = Some n1 -> node_at h j b = Some n2 ->
             key_equal_func h (key n1) (key n2) = true -> i = j /\ a = b).
  { intros i a n1 j b n2 H1 H2 Heq.
    assert (i = j) as <-.
    { rewrite <- (Hslot _ _ _ H1), <- (Hslot _ _ _ H2). unfold slot.
      rewrite Hef in Heq. apply Hhash in Heq. rewrite Hhf. by rewrite Heq. }
    split; [done|]. unfold node_at in H1, H2.
    destruct (buckets_of h !! i) as [chain|] eqn:Hchain; [|done].
    pose proof (Hdist _ _ Hchain) as Hd. simpl in H1, H2.
    eapply chain_distinct_lookup; [|exact Hd|exact H1|exact H2|exact Heq].
    by rewrite Hef. }
  split; [exact Hnodup|].
  intros k i a n1 j b n2 H1 H2 Hk1 Hk2.
  apply (Hnodup _ _ _ _ _ _ H1 H2).
  rewrite Hef in *. eapply Htrans; [|exact Hk2]. by apply Hsym.
Qed.

Lemma reachable_insert_all (hf : ptr -> Z) (ef : ptr -> ptr -> bool)
    (kd vd : ptr) (kvs : list (ptr * ptr)) (h : PolKitHash) (w : world)
    (r : bool) (h' : PolKitHash) (w' : world) :
  reachable hf ef kd vd h ->
  insert_all h kvs w = Some ((r, h'), w') ->
  reachable hf ef kd vd h'.
Proof.
  revert h w. induction kvs as [|[k v] kvs IH]; intros h w Hreach;
    cbn [insert_all].
  - by intros [= _ <- _].
  - rewrite bind_run. cbn [fst snd].
    destruct (polkit_hash_insert (Some h) k v w) as [[[r1 h1] w1]|] eqn:Hins;
      [|done].
    assert (reachable hf ef kd vd h1) by by eapply reachable_insert.
    destruct r1; [by apply IH|]. by intros [= _ <- _].
Qed.

Lemma p_direct_equal_symmetric : equal_symmetric p_direct_equal.
Proof. intros a b. unfold p_direct_equal. rewrite !Z.eqb_eq. lia. Qed.

Lemma p_direct_equal_transitive : equal_transitive p_direct_equal.
Proof. intros a b c. unfold p_direct_equal. rewrite !Z.eqb_eq. lia. Qed.

Lemma p_direct_hash_respects_equal :
  hash_respects_equal p_direct_hash p_direct_equal.
Proof. intros a b. unfold p_direct_equal. rewrite Z.eqb_eq. by intros ->. Qed.

Lemma example_table_reachable :
  reachable p_direct_hash p_direct_equal 7 8 example_table.
Proof.
  eapply (reachable_insert_all _ _ _ _ [(1, 100); (12, 200); (2, 300)]
            (Table 1 11 (Some (replicate 11 [])) p_direct_hash p_direct_equal 7 8)
            (World [] [EvAlloc BlkHash true; EvAlloc BlkTopNodes true]) true).
  - by apply (reachable_new _ _ _ _ world_ok _
                (World [] [EvAlloc BlkHash true; EvAlloc BlkTopNodes true])).
  - reflexivity.
Qed.

Lemma reachable_buckets_consistent_no_duplicates_witness :
  reachable p_direct_hash p_direct_equal 7 8 example_table /\
  (forall i a node,
     node_at example_table i a = Some node ->
     Z.of_nat i = to_uint (hash_func example_table (key node))
                  mod num_top_nodes example_table) /\
  (forall i a n1 j b n2,
     node_at example_table i a = Some n1 ->
     node_at example_table j b = Some n2 ->
     key_equal_func example_table (key n1) (key n2) = true ->
     i = j /\ a = b) /\
  (forall k i a n1 j b n2,
     node_at example_table i a = Some n1 ->
     node_at example_table j b = Some n2 ->
     key_equal_func example_table k (key n1) = true ->
     key_equal_func example_table k (key n2) = true ->
     i = j /\ a = b).
Proof.
  split; [exact example_table_reachable|].
  destruct (reachable_buckets_consistent_no_duplicates
              p_direct_hash p_direct_equal 7 8 example_table
              example_table_reachable) as [Hslots Hnodup].
  split; [exact Hslots|].
  exact (Hnodup p_direct_equal_symmetric p_direct_equal_transitive
                p_direct_hash_respects_equal).
Defined.

(** ** Inserting distinct keys *)

Lemma find_app_first {A} (f : A -> bool) (l1 l2 : list A) :
  List.find f (l1 ++ l2)
  = match List.find f l1 with
    | Some x => Some x
    | None => List.find f l2
    end.
Proof. induction l1 as [|x l1 IH]; simpl; [done|]. by destruct (f x). Qed.

Lemma chain_at_same_slot (h : PolKitHash) (k k' : ptr) :
  slot h k' = slot h k -> chain_at h k' = chain_at h k.
Proof. unfold chain_at. by intros ->. Qed.

(** The node found for [k0] once [(k, v)] has been appended to the chain of
    the bucket of [k]. *)
Lemma stored_node_append (h : PolKitHash) (k v k0 : ptr) :
  wf h ->
  stored_node (set_chain h (slot h k) (chain_at h k ++ [Node k v])) k0
  = match stored_node h k0 with
    | Some node => Some node
    | None =>
        if decide (slot h k0 = slot h k)
        then if key_equal_func h k0 k then Some (Node k v) else None
        else None
    end.
Proof.
  intros Hwf. unfold stored_node at 1.
  rewrite set_chain_chain_at, set_chain_matching by done.
  destruct (decide (slot h k0 = slot h k)) as [Heq|Hne].
  - rewrite find_app_first, <- (chain_at_same_slot h k k0 Heq).
    fold (stored_node h k0). destruct (stored_node h k0); [done|].
    simpl. unfold matching. simpl. by destruct (key_equal_func h k0 k).
  - fold (stored_node h k0). by destruct (stored_node h k0).
Qed.

Lemma insert_all_stored (kvs : list (ptr * ptr)) (h : PolKitHash) (w : world)
    (h' : PolKitHash) (w' : world) :
  wf h ->
  Forall (λ k, present h k = false) kvs.*1 ->
  pairwise_distinct (key_equal_func h) kvs.*1 = true ->
  Forall (λ k, key_equal_func h k k = true) kvs.*1 ->
  insert_all h kvs w = Some ((true, h'), w') ->
  wf h' /\
  (forall k0 node, stored_node h k0 = Some node -> stored_node h' k0 = Some node) /\
  Forall (λ kv, stored_node h' kv.1 = Some (Node kv.1 kv.2)) kvs.
Proof.
  revert h w. induction kvs as [|[k v] kvs IH]; intros h w Hwf Habs Hpd Hrefl;
    cbn [insert_all].
  - intros [= <- _]. split; [done|]. split; [done|]. constructor.
  - cbn [fmap list_fmap fst snd] in *.
    apply Forall_cons in Habs as [Hk Habs].
    apply Forall_cons in Hrefl as [Hkk Hrefl].
    cbn [pairwise_distinct] in Hpd. apply andb_true_iff in Hpd as [Hk_rest Hpd].
    rewrite forallb_forall in Hk_rest.
    rewrite bind_run, insert_absent_run by done.
    destruct (next_alloc w); [|done]. intros Hrest.
    set (h1 := set_chain h (slot h k) (chain_at h k ++ [Node k v])) in *.
    assert (Hstep : forall k0,
               stored_node h1 k0
               = match stored_node h k0 with
                 | Some node => Some node
                 | None =>
                     if decide (slot h k0 = slot h k)
                     then if key_equal_func h k0 k then Some (Node k v) else None
                     else None
                 end) by (intros k0; by apply stored_node_append).
    edestruct (IH h1) as (Hwf' & Hkeep & Hall);
      [by apply set_chain_wf| | | |exact Hrest|].
    + rewrite Forall_forall in Habs |- *. intros k0 Hk0.
      apply absent_stored_node. rewrite Hstep.
      specialize (Habs k0 Hk0). apply absent_stored_node in Habs.
      rewrite Habs.
      apply list_elem_of_In, Hk_rest in Hk0.
      apply andb_true_iff in Hk0 as [_ Hk0]. apply negb_true_iff in Hk0.
      rewrite Hk0. by destruct (decide _).
    + exact Hpd.
    + exact Hrefl.
    + split; [done|]. split.
      * intros k0 node Hnode. apply Hkeep. by rewrite Hstep, Hnode.
      * apply Forall_cons. split; [|done]. cbn [fst snd].
        apply Hkeep. rewrite Hstep.
        apply absent_stored_node in Hk. rewrite Hk, decide_True by done.
        by rewrite Hkk.
Qed.

Lemma new_table_empty (hf : ptr -> Z) (ef : ptr -> ptr -> bool) (kd vd : ptr)
    (k : ptr) :
  present (Table 1 11 (Some (replicate 11 [])) hf ef kd vd) k = false.
Proof.
  unfold present, chain_at, buckets_of. cbn [top_nodes default from_option id].
  match goal with
  | |- context [replicate ?n ?x !! ?i] =>
      destruct (replicate n x !! i) as [chain|] eqn:Hchain; [|done]
  end.
  by apply lookup_replicate in Hchain as [-> _].
Qed.

(** C1: take a table fresh from [polkit_hash_new] and insert a sequence of
    key/value pairs whose keys are pairwise distinct under [equal_fn], every
    insert succeeding; then looking up any inserted key returns the value it
    was inserted with and sets the found flag to true. Each inserted key is
    taken to equal itself under [equal_fn]. *)
Theorem insert_distinct_then_lookup
    (hf : ptr -> Z) (ef : ptr -> ptr -> bool) (kd vd : ptr)
    (kvs : list (ptr * ptr)) (w0 w1 w2 : world) (h0 h : PolKitHash) :
  polkit_hash_new (Some hf) (Some ef) kd vd w0 = Some (Some h0, w1) ->
  pairwise_distinct ef kvs.*1 = true ->
  Forall (λ k, ef k k = true) kvs.*1 ->
  insert_all h0 kvs w1 = Some ((true, h), w2) ->
  forall k v flag w,
    (k, v) ∈ kvs ->
    polkit_hash_lookup (Some h) k (Some flag) w = Some ((v, Some true), w).
Proof.
  intros Hnew Hpd Hrefl Hall k v flag w Hkv.
  apply new_shape in Hnew as ->.
  destruct (insert_all_stored kvs _ _ _ _ (new_table_wf hf ef kd vd)
              ltac:(apply Forall_forall; intros; apply new_table_empty)
              Hpd Hrefl Hall) as (Hwf & _ & Hstored).
  rewrite Forall_forall in Hstored. specialize (Hstored _ Hkv).
  cbn [fst snd] in Hstored.
  rewrite lookup_run by done.
  assert (present h k = true) as ->
    by (apply present_stored_node; by rewrite Hstored).
  by rewrite Hstored.
Qed.

Lemma insert_distinct_then_lookup_witness :
  polkit_hash_new (Some p_direct_hash) (Some p_direct_equal) 7 8 world_ok
  = Some (Some (Table 1 11 (Some (replicate 11 []))
                      p_direct_hash p_direct_equal 7 8),
          World [] [EvAlloc BlkHash true; EvAlloc BlkTopNodes true]) /\
  pairwise_distinct p_direct_equal [(1, 100); (12, 200); (2, 300)].*1 = true /\
  Forall (λ k, p_direct_equal k k = true) [(1, 100); (12, 200); (2, 300)].*1 /\
  insert_all (Table 1 11 (Some (replicate 11 []))
                    p_direct_hash p_direct_equal 7 8)
             [(1, 100); (12, 200); (2, 300)]
             (World [] [EvAlloc BlkHash true; EvAlloc BlkTopNodes true])
  = Some ((true, example_table),
          World [] [EvAlloc BlkHash true; EvAlloc BlkTopNodes true;
                    EvAlloc BlkNode true; EvAlloc BlkNode true;
                    EvAlloc BlkNode true]) /\
  forall k v flag w,
    (k, v) ∈ [(1, 100); (12, 200); (2, 300)] ->
    polkit_hash_lookup (Some example_table) k (Some flag) w
    = Some ((v, Some true), w).
Proof.
  split; [reflexivity|]. split; [reflexivity|].
  split; [by repeat constructor|]. split; [reflexivity|].
  apply (insert_distinct_then_lookup p_direct_hash p_direct_equal 7 8
           [(1, 100); (12, 200); (2, 300)] world_ok
           (World [] [EvAlloc BlkHash true; EvAlloc BlkTopNodes true])
           (World [] [EvAlloc BlkHash true; EvAlloc BlkTopNodes true;
                      EvAlloc BlkNode true; EvAlloc BlkNode true;
                      EvAlloc BlkNode true])
           (Table 1 11 (Some (replicate 11 [])) p_direct_hash p_direct_equal 7 8)
           example_table).
  - reflexivity.
  - reflexivity.
  - by repeat constructor.
  - reflexivity.
Defined.

(** ** Insert then lookup, for callbacks that honour their contract *)

Lemma no_match_transfer (h : PolKitHash) (k k' : ptr)
    (chain : list PolKitHashNode) :
  equal_symmetric (key_equal_func h) ->
  equal_transitive (key_equal_func h) ->
  key_equal_func h k' k = true ->
  existsb (matching h k) chain = false ->
  existsb (matching h k') chain = false.
Proof.
  intros Hsym Htrans Heq. rewrite !existsb_false_Forall.
  intros Hchain. eapply Forall_impl; [exact Hchain|].
  intros node Hnode. unfold matching in *.
  destruct (key_equal_func h k' (key node)) eqn:Hk'; [|done].
  rewrite <- Hnode. symmetry. eapply Htrans; [|exact Hk']. by apply Hsym.
Qed.

(** After a successful insert of [(k, v)], every key equal to [k] is found in
    the node holding [(k, v)]. *)
Lemma stored_after_insert_same (h : PolKitHash) (k v k' : ptr) (w : world)
    (h' : PolKitHash) (w' : world) :
  wf h ->
  equal_symmetric (key_equal_func h) ->
  equal_transitive (key_equal_func h) ->
  hash_respects_equal (hash_func h) (key_equal_func h) ->
  key_equal_func h k' k = true ->
  polkit_hash_insert (Some h) k v w = Some ((true, h'), w') ->
  stored_node h' k' = Some (Node k v).
Proof.
  intros Hwf Hsym Htrans Hhash Heq Hins.
  assert (Hslot : slot h k' = slot h k)
    by (unfold slot; by rewrite (Hhash _ _ Heq)).
  destruct (insert_cases _ _ _ _ _ _ _ Hwf Hins)
    as [(old & l1 & l2 & Hchain & Hl1 & Hold & _ & ->)
       |[(Habs & _ & ->)|(_ & ? & _)]]; [| |done].
  - unfold stored_node.
    rewrite set_chain_chain_at, decide_True, set_chain_matching by done.
    apply find_app_match; [|done]. by eapply no_match_transfer.
  - unfold stored_node.
    rewrite set_chain_chain_at, decide_True, set_chain_matching by done.
    apply find_app_match; [|done]. by eapply no_match_transfer.
Qed.

(** An insert of [(k, v)] does not change what is found for a key that is not
    equal to [k]. *)
Lemma stored_after_insert_other (h : PolKitHash) (k v k' : ptr) (w : world)
    (r : bool) (h' : PolKitHash) (w' : world) :
  wf h ->
  equal_symmetric (key_equal_func h) ->
  equal_transitive (key_equal_func h) ->
  key_equal_func h k' k = false ->
  polkit_hash_insert (Some h) k v w = Some ((r, h'), w') ->
  stored_node h' k' = stored_node h k'.
Proof.
  intros Hwf Hsym Htrans Hne Hins.
  destruct (insert_cases _ _ _ _ _ _ _ Hwf Hins)
    as [(old & l1 & l2 & Hchain & Hl1 & Hold & _ & ->)
       |[(Habs & _ & ->)|(_ & _ & ->)]]; [| |done].
  - unfold stored_node at 1.
    rewrite set_chain_chain_at, set_chain_matching by done.
    destruct (decide (slot h k' = slot h k)) as [Hslot|]; [|done].
    unfold stored_node. rewrite (chain_at_same_slot _ _ _ Hslot), Hchain.
    rewrite !find_app_first. destruct (List.find (matching h k') l1); [done|].
    unfold matching in *. simpl. rewrite Hne.
    destruct (key_equal_func h k' (key old)) eqn:Hk'; [|done].
    apply Hsym in Hold. by rewrite (Htrans _ _ _ Hk' Hold) in Hne.
  - rewrite stored_node_append by done.
    destruct (stored_node h k'); [done|]. rewrite Hne. by destruct (decide _).
Qed.

(** The replace path hands the old key to the destructor even when the new
    key is another pointer: keys compared by their last three digits. *)
Example insert_replace_other_pointer :
  match polkit_hash_insert
          (Some (Table 1 11 (Some [[]; [Node 1012 200]; []; []; []; []; [];
                                   []; []; []; []])
                       (λ k, k mod 1000)
                       (λ a b, a mod 1000 =? b mod 1000) 7 8))
          2012 201 world_oom with
  | Some ((r, h'), w') => Some (r, top_nodes h', w')
  | None => None
  end
  = Some (true, Some [[]; [Node 2012 201]; []; []; []; []; []; []; []; []; []],
          World [false] [EvCall 7 1012; EvCall 8 200]).
Proof. reflexivity. Qed.

(** The second scenario of [_run_test]: an identity-keyed table without
    destructors, holding its own handle (here the address 4096) as key and
    value; the two assertions hold, and the release frees the node, the
    bucket array and the table without calling any destructor. *)
Example run_test_direct_hash :
  (hash ← polkit_hash_new (Some p_direct_hash) (Some p_direct_equal) NULL NULL;
   if hash is Some h then
     '(r1, h) ← polkit_hash_insert (Some h) 4096 4096;
     l1 ← polkit_hash_lookup (Some h) 4096 (Some false);
     '(r2, h) ← polkit_hash_insert (Some h) 4096 NULL;
     l2 ← polkit_hash_lookup (Some h) 4096 (Some false);
     hash ← polkit_hash_unref (Some h);
     mret (Some (r1, l1, r2, l2, if hash is Some _ then true else false))
   else mret None) world_ok
  = Some (Some (true, (4096, Some true), true, (NULL, Some true), false),
          World [] [EvAlloc BlkHash true; EvAlloc BlkTopNodes true;
                    EvAlloc BlkNode true;
                    EvFree BlkNode; EvFree BlkTopNodes; EvFree BlkHash]).
Proof. reflexivity. Qed.

(** * Further properties *)

(** ** Accounting of blocks *)

Lemma live_app (b : block) (tr1 tr2 : list event) :
  live b (tr1 ++ tr2) = live b tr1 + live b tr2.
Proof. induction tr1 as [|e tr1 IH]; simpl; [done|]. rewrite IH. lia. Qed.

Lemma calls_of_app (tr1 tr2 : list event) :
  calls_of (tr1 ++ tr2) = calls_of tr1 ++ calls_of tr2.
Proof. apply List.filter_app. Qed.

Lemma destroy_events_live (h : PolKitHash) (node : PolKitHashNode) (b : block) :
  live b (destroy_events h node) = 0.
Proof.
  unfold destroy_events.
  by destruct (key_destroy_func h =? NULL), (value_destroy_func h =? NULL).
Qed.

Lemma destroy_events_calls (h : PolKitHash) (node : PolKitHashNode) :
  calls_of (destroy_events h node) = destroy_events h node.
Proof.
  unfold destroy_events.
  by destruct (key_destroy_func h =? NULL), (value_destroy_func h =? NULL).
Qed.

(** ** The nodes of a table when one chain is replaced *)

Lemma concat_insert_perm {A} (ls : list (list A)) (i : nat) (l l' : list A) :
  ls !! i = Some l ->
  l ++ concat (<[i := l']> ls) ≡ₚ l' ++ concat ls.
Proof.
  intros Hl. rewrite insert_take_drop by by eapply lookup_lt_Some.
  rewrite <- (take_drop_middle ls i l Hl) at 3.
  rewrite !concat_app. simpl.
  rewrite !(Permutation_app_comm (concat (take i ls))), !app_assoc.
  apply Permutation_app_tail.
  rewrite <- !app_assoc. rewrite !(app_assoc l), !(app_assoc l').
  apply Permutation_app_tail, Permutation_app_comm.
Qed.

Lemma nodes_of_set_chain (h : PolKitHash) (k : ptr)
    (chain' : list PolKitHashNode) :
  wf h ->
  chain_at h k ++ nodes_of (set_chain h (slot h k) chain')
  ≡ₚ chain' ++ nodes_of h.
Proof.
  intros Hwf. unfold nodes_of. rewrite set_chain_buckets.
  by apply concat_insert_perm, wf_chain_at.
Qed.

(** Everything one insert does, by cases: the table's nodes up to order, and
    the world. *)
Lemma insert_effect (h : PolKitHash) (k v : ptr) (w : world) (r : bool)
    (h' : PolKitHash) (w' : world) :
  wf h ->
  polkit_hash_insert (Some h) k v w = Some ((r, h'), w') ->
  (exists old,
     stored_node h k = Some old /\ r = true /\
     old :: nodes_of h' ≡ₚ Node k v :: nodes_of h /\
     w' = World (alloc_plan w) (trace w ++ destroy_events h old)) \/
  (present h k = false /\ r = true /\
   nodes_of h' ≡ₚ Node k v :: nodes_of h /\
   w' = World (tail (alloc_plan w)) (trace w ++ [EvAlloc BlkNode true])) \/
  (present h k = false /\ r = false /\ h' = h /\
   w' = World (tail (alloc_plan w)) (trace w ++ [EvAlloc BlkNode false])).
Proof.
  intros Hwf Hins. destruct (present h k) eqn:Hp.
  - left. apply present_stored_node in Hp as [old Hold]. exists old.
    destruct (insert_present_run h k v w old Hwf Hold)
      as (l1 & l2 & Hchain & _ & _ & Heq).
    rewrite Heq in Hins. injection Hins as <- <- <-.
    repeat split; try done.
    pose proof (nodes_of_set_chain h k (l1 ++ Node k v :: l2) Hwf) as Hperm.
    rewrite Hchain in Hperm.
    rewrite <- !app_assoc in Hperm. apply Permutation_app_inv_l in Hperm.
    simpl in Hperm. rewrite !Permutation_middle in Hperm.
    by apply Permutation_app_inv_l in Hperm.
  - right. rewrite insert_absent_run in Hins by done.
    injection Hins as <- <- <-. destruct (next_alloc w); [left|right].
    + repeat split; try done.
      pose proof (nodes_of_set_chain h k (chain_at h k ++ [Node k v]) Hwf)
        as Hperm.
      rewrite <- app_assoc in Hperm. apply Permutation_app_inv_l in Hperm.
      exact Hperm.
    + done.
Qed.

Lemma new_table_nodes (hf : ptr -> Z) (ef : ptr -> ptr -> bool) (kd vd : ptr) :
  nodes_of (Table 1 11 (Some (replicate 11 [])) hf ef kd vd) = [].
Proof. reflexivity. Qed.

(** X1: an insert changes the number of nodes of the table by exactly what it
    reports: a key already present is replaced in place (same number of
    nodes), a new key adds one node when the insert succeeds and none when it
    fails. *)
Theorem insert_node_count (h : PolKitHash) (k v : ptr) (w : world) (r : bool)
    (h' : PolKitHash) (w' : world) :
  wf h ->
  polkit_hash_insert (Some h) k v w = Some ((r, h'), w') ->
  length (nodes_of h')
  = (length (nodes_of h) + if present h k then 0 else if r then 1 else 0)%nat.
Proof.
  intros Hwf Hins.
  destruct (insert_effect _ _ _ _ _ _ _ Hwf Hins)
    as [(old & Hold & -> & Hperm & _)
       |[(Habs & -> & Hperm & _)|(Habs & -> & -> & _)]].
  - assert (present h k = true) as ->
      by (apply present_stored_node; by rewrite Hold).
    apply Permutation_length in Hperm. simpl in Hperm. lia.
  - rewrite Habs. apply Permutation_length in Hperm. simpl in Hperm. lia.
  - rewrite Habs. lia.
Qed.

Lemma insert_node_count_witness :
  wf example_table /\
  polkit_hash_insert (Some example_table) 23 5 world_ok
  = Some ((true, set_chain example_table 1 [Node 1 100; Node 12 200; Node 23 5]),
          World [] [EvAlloc BlkNode true]) /\
  length (nodes_of (set_chain example_table 1
                      [Node 1 100; Node 12 200; Node 23 5]))
  = (length (nodes_of example_table)
     + if present example_table 23%Z then 0 else if true then 1 else 0)%nat.
Proof.
  split; [split; [done|reflexivity]|]. split; [reflexivity|].
  apply (insert_node_count example_table 23 5 world_ok true _
           (World [] [EvAlloc BlkNode true])).
  - split; [done|reflexivity].
  - reflexivity.
Defined.

(** ** Construction *)

Lemma new_outcome
    (hf : option (ptr -> Z)) (ef : option (ptr -> ptr -> bool)) (kd vd : ptr)
    (w : world) :
  exists hash w',
    polkit_hash_new hf ef kd vd w = Some (hash, w') /\
    calls_of (trace w') = calls_of (trace w) /\
    match hash with
    | None => forall b, live b (trace w') = live b (trace w)
    | Some h =>
        (exists hf' ef',
           hf = Some hf' /\ ef = Some ef' /\
           h = Table 1 11 (Some (replicate 11 [])) hf' ef' kd vd) /\
        forall b, live b (trace w') = live b (trace w) + blocks_held h b
    end.
Proof.
  destruct w as [plan tr].
  destruct hf as [hf'|], ef as [ef'|];
    [|eexists None, _; (split; [lazy; reflexivity|]); cbn;
      rewrite ?calls_of_app, ?app_nil_r; (split; [done|]);
      intros b; rewrite live_app; simpl; lia ..].
  destruct plan as [|[] [|[] plan]];
    eexists _, _; (split; [lazy; reflexivity|]); cbn;
    rewrite ?calls_of_app, ?app_nil_r; (split; [done|]);
    try (split; [by eexists _, _|]);
    intros b; rewrite !live_app; simpl; destruct b; simpl; lia.
Qed.

(** X2: [polkit_hash_new] always returns. It never calls a destructor. When it
    returns NULL (a callback is missing, or one of its two allocations
    failed) nothing it allocated is left allocated: the table block obtained
    before a failed bucket-array allocation is given back. When it returns a
    table, that table has refcount 1 and eleven empty buckets, and the blocks
    it holds are exactly the new live blocks. *)
Theorem new_returns_table_or_releases_all
    (hf : option (ptr -> Z)) (ef : option (ptr -> ptr -> bool)) (kd vd : ptr)
    (w : world) :
  exists hash w',
    polkit_hash_new hf ef kd vd w = Some (hash, w') /\
    calls_of (trace w') = calls_of (trace w) /\
    match hash with
    | None => forall b, live b (trace w') = live b (trace w)
    | Some h =>
        (exists hf' ef',
           hf = Some hf' /\ ef = Some ef' /\
           h = Table 1 11 (Some (replicate 11 [])) hf' ef' kd vd) /\
        forall b, live b (trace w') = live b (trace w) + blocks_held h b
    end.
Proof. apply new_outcome. Qed.

(** X3: in a table fresh from [polkit_hash_new] no key is found: every lookup
    returns NULL, sets the flag (if given) to false and leaves the world as it
    is. *)
Theorem lookup_in_new_table_finds_nothing
    (hf : ptr -> Z) (ef : ptr -> ptr -> bool) (kd vd : ptr)
    (w0 w1 : world) (h : PolKitHash) (k : ptr) (found : option bool) (w : world) :
  polkit_hash_new (Some hf) (Some ef) kd vd w0 = Some (Some h, w1) ->
  polkit_hash_lookup (Some h) k found w
  = Some ((NULL, if found is Some _ then Some false else None), w).
Proof.
  intros Hnew. apply new_shape in Hnew as ->.
  rewrite lookup_run by apply new_table_wf.
  pose proof (new_table_empty hf ef kd vd k) as Habs. rewrite Habs.
  apply absent_stored_node in Habs. by rewrite Habs.
Qed.

Lemma lookup_in_new_table_finds_nothing_witness :
  polkit_hash_new (Some p_direct_hash) (Some p_direct_equal) 7 8 world_ok
  = Some (Some (Table 1 11 (Some (replicate 11 []))
                      p_direct_hash p_direct_equal 7 8),
          World [] [EvAlloc BlkHash true; EvAlloc BlkTopNodes true]) /\
  polkit_hash_lookup
    (Some (Table 1 11 (Some (replicate 11 [])) p_direct_hash p_direct_equal 7 8))
    12 (Some true) world_ok
  = Some ((NULL, Some false), world_ok).
Proof.
  split; [reflexivity|].
  apply (lookup_in_new_table_finds_nothing p_direct_hash p_direct_equal 7 8
           world_ok (World [] [EvAlloc BlkHash true; EvAlloc BlkTopNodes true])
           _ 12 (Some true) world_ok).
  reflexivity.
Defined.

(** ** Reachable tables are safe to operate on *)

Lemma unref_shape_final (h : PolKitHash) (rc : Z) (w : world)
    (h' : PolKitHash) (w' : world) :
  (match top_nodes (set_refcount h rc) with
   | Some buckets =>
       unref_buckets (set_refcount h rc) buckets 0
         (Z.to_nat (num_top_nodes (set_refcount h rc))) ;;
       p_free (Some BlkTopNodes)
   | None => p_free None
   end ;; p_free (Some BlkHash) ;; mret None) w = Some (Some h', w') ->
  False.
Proof.
  rewrite !bind_run.
  repeat match goal with
         | |- context [match ?m with Some _ => _ | None => _ end] =>
             destruct m as [[? ?]|]; [|done]
         end.
  done.
Qed.

Lemma reachable_refcount (hf : ptr -> Z) (ef : ptr -> ptr -> bool) (kd vd : ptr)
    (h : PolKitHash) :
  reachable hf ef kd vd h -> 0 < refcount h <= INT_MAX.
Proof.
  induction 1 as [w h w' Hnew
                 |h k v w r h' w' Hreach IH Hins
                 |h w h' w' _ IH Hop
                 |h w h' w' _ IH Hop].
  - by apply new_shape in Hnew as ->.
  - destruct (reachable_slots _ _ _ _ _ Hreach) as (Hwf & _).
    by destruct (insert_cases _ _ _ _ _ _ _ Hwf Hins)
      as [(? & ? & ? & _ & _ & _ & _ & ->)|[(_ & _ & ->)|(_ & _ & ->)]].
  - unfold polkit_hash_ref, int_incr in Hop. rewrite bind_run in Hop.
    destruct (Z.leb_spec (refcount h + 1) INT_MAX); [|done].
    injection Hop as <- _. cbn [refcount set_refcount]. lia.
  - unfold polkit_hash_unref, int_decr in Hop. rewrite bind_run in Hop.
    destruct (INT_MIN <=? refcount h - 1); [|done].
    rewrite ret_run in Hop. cbn [refcount set_refcount] in Hop.
    destruct (Z.ltb_spec 0 (refcount h - 1)).
    + injection Hop as <- _. cbn [refcount set_refcount]. lia.
    + apply unref_shape_final in Hop. done.
Qed.

Lemma lookup_total (h : PolKitHash) (k : ptr) (found : option bool) (w : world) :
  wf h -> is_Some (polkit_hash_lookup (Some h) k found w).
Proof. intros Hwf. rewrite lookup_run by done. by eexists. Qed.

Lemma unref_total (h : PolKitHash) (w : world) :
  wf h -> 0 < refcount h -> is_Some (polkit_hash_unref (Some h) w).
Proof.
  intros Hwf Hrc. destruct (decide (refcount h = 1)) as [Hone|Hmore].
  - rewrite unref_final by done. by eexists.
  - rewrite unref_keep by lia. by eexists.
Qed.

(** X4: on every table reachable from construction the reference count is
    strictly positive and within the range of [int], and no operation runs
    into undefined behaviour: the bucket index computed by insert and lookup
    is always inside the bucket array, release never underflows the counter,
    and acquire overflows it only at [INT_MAX]. *)
Theorem reachable_operations_are_defined
    (hf : ptr -> Z) (ef : ptr -> ptr -> bool) (kd vd : ptr) (h : PolKitHash) :
  reachable hf ef kd vd h ->
  0 < refcount h <= INT_MAX /\
  (forall k v w, is_Some (polkit_hash_insert (Some h) k v w)) /\
  (forall k found w, is_Some (polkit_hash_lookup (Some h) k found w)) /\
  (forall w, is_Some (polkit_hash_unref (Some h) w)) /\
  (forall w, is_Some (polkit_hash_ref (Some h) w) <-> refcount h < INT_MAX).
Proof.
  intros Hreach. pose proof (reachable_refcount _ _ _ _ _ Hreach) as Hrc.
  destruct (reachable_slots _ _ _ _ _ Hreach) as (Hwf & _).
  split; [done|]. split; [|split; [|split]].
  - intros k v w. by apply insert_total.
  - intros k found w. by apply lookup_total.
  - intros w. apply unref_total; [done|lia].
  - intros w. split.
    + unfold polkit_hash_ref, int_incr. rewrite bind_run.
      destruct (Z.leb_spec (refcount h + 1) INT_MAX); [lia|]. by intros [? ?].
    + intros Hlt. rewrite ref_run by done. by eexists.
Qed.

Lemma reachable_operations_are_defined_witness :
  reachable p_direct_hash p_direct_equal 7 8 example_table /\
  0 < refcount example_table <= INT_MAX /\
  (forall k v w, is_Some (polkit_hash_insert (Some example_table) k v w)) /\
  (forall k found w, is_Some (polkit_hash_lookup (Some example_table) k found w)) /\
  (forall w, is_Some (polkit_hash_unref (Some example_table) w)) /\
  (forall w, is_Some (polkit_hash_ref (Some example_table) w)
             <-> refcount example_table < INT_MAX).
Proof.
  split; [exact example_table_reachable|].
  apply (reachable_operations_are_defined p_direct_hash p_direct_equal 7 8
           example_table).
  exact example_table_reachable.
Defined.

(** ** Insert then lookup *)

(** X5: with callbacks that honour their contract, after a successful insert
    of [(k, v)] a lookup of any key equal to [k] (in particular [k] itself,
    when it equals itself) returns [v] with the found flag set. *)
Theorem lookup_after_insert_same (h : PolKitHash) (k v k' : ptr) (w : world)
    (h' : PolKitHash) (w' : world) (flag : bool) (w2 : world) :
  wf h ->
  equal_symmetric (key_equal_func h) ->
  equal_transitive (key_equal_func h) ->
  hash_respects_equal (hash_func h) (key_equal_func h) ->
  key_equal_func h k' k = true ->
  polkit_hash_insert (Some h) k v w = Some ((true, h'), w') ->
  polkit_hash_lookup (Some h') k' (Some flag) w2 = Some ((v, Some true), w2).
Proof.
  intros Hwf Hsym Htrans Hhash Heq Hins.
  pose proof (stored_after_insert_same _ _ _ _ _ _ _ Hwf Hsym Htrans Hhash
                Heq Hins) as Hst.
  rewrite lookup_run by by eapply insert_wf.
  assert (present h' k' = true) as ->
    by (apply present_stored_node; by rewrite Hst).
  by rewrite Hst.
Qed.

Lemma lookup_after_insert_same_witness :
  wf example_table /\
  equal_symmetric (key_equal_func example_table) /\
  equal_transitive (key_equal_func example_table) /\
  hash_respects_equal (hash_func example_table) (key_equal_func example_table) /\
  key_equal_func example_table 12 12 = true /\
  polkit_hash_insert (Some example_table) 12 201 world_ok
  = Some ((true, set_chain example_table 1 [Node 1 100; Node 12 201]),
          World [] [EvCall 7 12; EvCall 8 200]) /\
  polkit_hash_lookup (Some (set_chain example_table 1 [Node 1 100; Node 12 201]))
                     12 (Some false) world_ok
  = Some ((201, Some true), world_ok).
Proof.
  split; [split; [done|reflexivity]|].
  split; [exact p_direct_equal_symmetric|].
  split; [exact p_direct_equal_transitive|].
  split; [exact p_direct_hash_respects_equal|].
  split; [reflexivity|]. split; [reflexivity|].
  apply (lookup_after_insert_same example_table 12 201 12 world_ok _
           (World [] [EvCall 7 12; EvCall 8 200]) false world_ok).
  - split; [done|reflexivity].
  - exact p_direct_equal_symmetric.
  - exact p_direct_equal_transitive.
  - exact p_direct_hash_respects_equal.
  - reflexivity.
  - reflexivity.
Defined.

(** X6: with a symmetric and transitive [equal_fn], an insert of [(k, v)],
    successful or not, changes nothing for a key that is not equal to [k]:
    its lookup returns the same value and the same flag as before. *)
Theorem lookup_after_insert_other (h : PolKitHash) (k v k' : ptr) (w : world)
    (r : bool) (h' : PolKitHash) (w' : world) (found : option bool) (w2 : world) :
  wf h ->
  equal_symmetric (key_equal_func h) ->
  equal_transitive (key_equal_func h) ->
  key_equal_func h k' k = false ->
  polkit_hash_insert (Some h) k v w = Some ((r, h'), w') ->
  polkit_hash_lookup (Some h') k' found w2
  = polkit_hash_lookup (Some h) k' found w2.
Proof.
  intros Hwf Hsym Htrans Hne Hins.
  pose proof (stored_after_insert_other _ _ _ _ _ _ _ _ Hwf Hsym Htrans Hne Hins)
    as Hst.
  rewrite !lookup_run by (done || by eapply insert_wf).
  unfold present. rewrite !existsb_find. fold (stored_node h' k').
  fold (stored_node h k'). by rewrite Hst.
Qed.

Lemma lookup_after_insert_other_witness :
  wf example_table /\
  equal_symmetric (key_equal_func example_table) /\
  equal_transitive (key_equal_func example_table) /\
  key_equal_func example_table 1 12 = false /\
  polkit_hash_insert (Some example_table) 12 201 world_ok
  = Some ((true, set_chain example_table 1 [Node 1 100; Node 12 201]),
          World [] [EvCall 7 12; EvCall 8 200]) /\
  polkit_hash_lookup (Some (set_chain example_table 1 [Node 1 100; Node 12 201]))
                     1 (Some false) world_ok
  = polkit_hash_lookup (Some example_table) 1 (Some false) world_ok.
Proof.
  split; [split; [done|reflexivity]|].
  split; [exact p_direct_equal_symmetric|].
  split; [exact p_direct_equal_transitive|].
  split; [reflexivity|]. split; [reflexivity|].
  apply (lookup_after_insert_other example_table 12 201 1 world_ok true _
           (World [] [EvCall 7 12; EvCall 8 200]) (Some false) world_ok).
  - split; [done|reflexivity].
  - exact p_direct_equal_symmetric.
  - exact p_direct_equal_transitive.
  - reflexivity.
  - reflexivity.
Defined.

Lemma insert_all_stored_value (kvs : list (ptr * ptr)) (h : PolKitHash)
    (w : world) (h' : PolKitHash) (w' : world) (k : ptr) :
  wf h ->
  equal_symmetric (key_equal_func h) ->
  equal_transitive (key_equal_func h) ->
  hash_respects_equal (hash_func h) (key_equal_func h) ->
  insert_all h kvs w = Some ((true, h'), w') ->
  wf h' /\
  value <$> stored_node h' k
  = match assoc_last (key_equal_func h) kvs k with
    | Some v => Some v
    | None => value <$> stored_node h k
    end.
Proof.
  revert h w. induction kvs as [|[k0 v0] kvs IH];
    intros h w Hwf Hsym Htrans Hhash; cbn [insert_all assoc_last fst snd].
  - by intros [= <- _].
  - rewrite bind_run.
    destruct (polkit_hash_insert (Some h) k0 v0 w) as [[[r h1] w1]|] eqn:Hins;
      [|done].
    destruct r; [|done]. intros Hrest.
    destruct (insert_shape _ _ _ _ _ _ _ Hwf Hins) as [chain' Hh1].
    assert (Hwf1 : wf h1) by by eapply insert_wf.
    assert (Hef : key_equal_func h1 = key_equal_func h) by by rewrite Hh1.
    assert (Hhf : hash_func h1 = hash_func h) by by rewrite Hh1.
    destruct (IH h1 w1 Hwf1) as [Hwf' Hval]; [by rewrite Hef..| |exact Hrest|].
    { by rewrite Hef, Hhf. }
    split; [done|]. rewrite Hval, Hef.
    destruct (assoc_last (key_equal_func h) kvs k); [done|].
    destruct (key_equal_func h k k0) eqn:Heq.
    + by rewrite (stored_after_insert_same _ _ _ _ _ _ _ Hwf Hsym Htrans Hhash
                    Heq Hins).
    + by rewrite (stored_after_insert_other _ _ _ _ _ _ _ _ Hwf Hsym Htrans
                    Heq Hins).
Qed.

(** X7: with callbacks that honour their contract, a table filled from empty
    by a sequence of successful inserts, keys repeated or not, answers every
    lookup with the value of the last pair inserted under a key equal to the
    one looked up, and with NULL and a false flag when there is none. *)
Theorem lookup_returns_last_inserted
    (hf : ptr -> Z) (ef : ptr -> ptr -> bool) (kd vd : ptr)
    (kvs : list (ptr * ptr)) (w0 w1 w2 : world) (h0 h : PolKitHash)
    (k : ptr) (flag : bool) (w : world) :
  equal_symmetric ef ->
  equal_transitive ef ->
  hash_respects_equal hf ef ->
  polkit_hash_new (Some hf) (Some ef) kd vd w0 = Some (Some h0, w1) ->
  insert_all h0 kvs w1 = Some ((true, h), w2) ->
  polkit_hash_lookup (Some h) k (Some flag) w
  = Some ((default NULL (assoc_last ef kvs k),
           Some (bool_decide (is_Some (assoc_last ef kvs k)))), w).
Proof.
  intros Hsym Htrans Hhash Hnew Hall. apply new_shape in Hnew as ->.
  destruct (insert_all_stored_value kvs _ _ _ _ k
              (new_table_wf hf ef kd vd) Hsym Htrans Hhash Hall) as [Hwf Hval].
  cbn [key_equal_func] in Hval.
  pose proof (new_table_empty hf ef kd vd k) as Habs.
  apply absent_stored_node in Habs. rewrite Habs in Hval.
  rewrite lookup_run by done. unfold present. rewrite existsb_find.
  fold (stored_node h k).
  destruct (assoc_last ef kvs k) as [v|], (stored_node h k) as [node|];
    simpl in *; congruence.
Qed.

Lemma lookup_returns_last_inserted_witness :
  equal_symmetric p_direct_equal /\
  equal_transitive p_direct_equal /\
  hash_respects_equal p_direct_hash p_direct_equal /\
  polkit_hash_new (Some p_direct_hash) (Some p_direct_equal) 7 8 world_ok
  = Some (Some (Table 1 11 (Some (replicate 11 []))
                      p_direct_hash p_direct_equal 7 8),
          World [] [EvAlloc BlkHash true; EvAlloc BlkTopNodes true]) /\
  insert_all (Table 1 11 (Some (replicate 11 []))
                    p_direct_hash p_direct_equal 7 8)
             [(1, 99); (12, 200); (1, 100); (2, 300)]
             (World [] [EvAlloc BlkHash true; EvAlloc BlkTopNodes true])
  = Some ((true, example_table),
          World [] [EvAlloc BlkHash true; EvAlloc BlkTopNodes true;
                    EvAlloc BlkNode true; EvAlloc BlkNode true;
                    EvCall 7 1; EvCall 8 99; EvAlloc BlkNode true]) /\
  polkit_hash_lookup (Some example_table) 1 (Some false) world_ok
  = Some ((default NULL
             (assoc_last p_direct_equal
                [(1, 99); (12, 200); (1, 100); (2, 300)] 1),
           Some (bool_decide
                   (is_Some (assoc_last p_direct_equal
                               [(1, 99); (12, 200); (1, 100); (2, 300)] 1)))),
          world_ok).
Proof.
  split; [exact p_direct_equal_symmetric|].
  split; [exact p_direct_equal_transitive|].
  split; [exact p_direct_hash_respects_equal|].
  split; [reflexivity|]. split; [reflexivity|].
  apply (lookup_returns_last_inserted p_direct_hash p_direct_equal 7 8
           [(1, 99); (12, 200); (1, 100); (2, 300)] world_ok
           (World [] [EvAlloc BlkHash true; EvAlloc BlkTopNodes true])
           (World [] [EvAlloc BlkHash true; EvAlloc BlkTopNodes true;
                      EvAlloc BlkNode true; EvAlloc BlkNode true;
                      EvCall 7 1; EvCall 8 99; EvAlloc BlkNode true])
           (Table 1 11 (Some (replicate 11 [])) p_direct_hash p_direct_equal 7 8)
           example_table 1 false world_ok).
  - exact p_direct_equal_symmetric.
  - exact p_direct_equal_transitive.
  - exact p_direct_hash_respects_equal.
  - reflexivity.
  - reflexivity.
Defined.

(** ** The life cycle of a table: blocks and destructor calls *)

Lemma insert_config (h : PolKitHash) (k v : ptr) (w : world) (r : bool)
    (h' : PolKitHash) (w' : world) :
  wf h ->
  polkit_hash_insert (Some h) k v w = Some ((r, h'), w') ->
  refcount h' = refcount h /\
  key_destroy_func h' = key_destroy_func h /\
  value_destroy_func h' = value_destroy_func h.
Proof.
  intros Hwf Hins. by destruct (insert_shape _ _ _ _ _ _ _ Hwf Hins) as [c ->].
Qed.

Lemma destroy_events_config (h h' : PolKitHash) :
  key_destroy_func h' = key_destroy_func h ->
  value_destroy_func h' = value_destroy_func h ->
  destroy_events h' = destroy_events h.
Proof. unfold destroy_events. by intros -> ->. Qed.

Lemma concat_fmap_perm {A B} (f : A -> list B) (l1 l2 : list A) :
  l1 ≡ₚ l2 -> concat (f <$> l1) ≡ₚ concat (f <$> l2).
Proof.
  induction 1 as [|x l1 l2 _ IH|x y l|l1 l2 l3 _ IH1 _ IH2]; simpl.
  - done.
  - by rewrite IH.
  - rewrite !app_assoc. apply Permutation_app_tail, Permutation_app_comm.
  - by rewrite IH1.
Qed.

Lemma node_frees_live (h : PolKitHash) (nodes : list PolKitHashNode)
    (b : block) :
  live b (concat ((λ node, destroy_events h node ++ [EvFree BlkNode])
                    <$> nodes))
  = if decide (BlkNode = b) then - Z.of_nat (length nodes) else 0.
Proof.
  induction nodes as [|node nodes IH].
  - simpl. by destruct (decide _).
  - rewrite fmap_cons. cbn [concat length].
    rewrite !live_app, destroy_events_live, IH. cbn [live event_delta].
    destruct (decide (BlkNode = b)); lia.
Qed.

Lemma node_frees_calls (h : PolKitHash) (nodes : list PolKitHashNode) :
  calls_of (concat ((λ node, destroy_events h node ++ [EvFree BlkNode])
                      <$> nodes))
  = concat (destroy_events h <$> nodes).
Proof.
  induction nodes as [|node nodes IH]; [done|].
  rewrite !fmap_cons. cbn [concat].
  rewrite !calls_of_app, destroy_events_calls, IH.
  change (calls_of [EvFree BlkNode]) with (@nil event). by rewrite app_nil_r.
Qed.

Lemma teardown_events_live (h : PolKitHash) (b : block) :
  live b (teardown_events h) = - blocks_held h b.
Proof.
  unfold teardown_events, blocks_held. fold (nodes_of h).
  rewrite live_app, node_frees_live. destruct b; simpl; lia.
Qed.

Lemma teardown_events_calls (h : PolKitHash) :
  calls_of (teardown_events h) = concat (destroy_events h <$> nodes_of h).
Proof.
  unfold teardown_events. fold (nodes_of h).
  rewrite calls_of_app, node_frees_calls. simpl. by rewrite app_nil_r.
Qed.

(** One insert keeps the balance between the live blocks and the blocks the
    table holds. *)
Lemma insert_live (h : PolKitHash) (k v : ptr) (w : world) (r : bool)
    (h' : PolKitHash) (w' : world) (b : block) :
  wf h ->
  polkit_hash_insert (Some h) k v w = Some ((r, h'), w') ->
  live b (trace w') - blocks_held h' b = live b (trace w) - blocks_held h b.
Proof.
  intros Hwf Hins.
  destruct (insert_effect _ _ _ _ _ _ _ Hwf Hins)
    as [(old & _ & _ & Hperm & ->)
       |[(_ & _ & Hperm & ->)|(_ & _ & -> & ->)]];
    cbn [trace]; rewrite live_app.
  - rewrite destroy_events_live. apply Permutation_length in Hperm.
    simpl in Hperm. unfold blocks_held. destruct b; lia.
  - apply Permutation_length in Hperm. simpl in Hperm.
    unfold blocks_held. destruct b; simpl; lia.
  - simpl. lia.
Qed.

Lemma insert_all_live (kvs : list (ptr * ptr)) (h : PolKitHash) (w : world)
    (r : bool) (h' : PolKitHash) (w' : world) :
  wf h ->
  insert_all h kvs w = Some ((r, h'), w') ->
  wf h' /\ refcount h' = refcount h /\
  forall b, live b (trace w') - blocks_held h' b
            = live b (trace w) - blocks_held h b.
Proof.
  revert h w. induction kvs as [|[k v] kvs IH]; intros h w Hwf;
    cbn [insert_all fst snd].
  - by intros [= _ <- <-].
  - rewrite bind_run.
    destruct (polkit_hash_insert (Some h) k v w) as [[[r1 h1] w1]|] eqn:Hins;
      [|done].
    assert (Hwf1 : wf h1) by by eapply insert_wf.
    destruct (insert_config _ _ _ _ _ _ _ Hwf Hins) as (Hrc & _).
    assert (Hstep : forall b, live b (trace w1) - blocks_held h1 b
                              = live b (trace w) - blocks_held h b)
      by (intros b; by eapply insert_live).
    destruct r1.
    + intros Hrest. destruct (IH _ _ Hwf1 Hrest) as (Hwf' & Hrc' & Hlive).
      split; [done|]. split; [congruence|].
      intros b. rewrite Hlive. apply Hstep.
    + by intros [= _ <- <-].
Qed.

Lemma new_table_live
    (hf : ptr -> Z) (ef : ptr -> ptr -> bool) (kd vd : ptr)
    (w : world) (h : PolKitHash) (w' : world) :
  polkit_hash_new (Some hf) (Some ef) kd vd w = Some (Some h, w') ->
  h = Table 1 11 (Some (replicate 11 [])) hf ef kd vd /\
  forall b, live b (trace w') = live b (trace w) + blocks_held h b.
Proof.
  intros Hnew. pose proof (new_shape _ _ _ _ _ _ _ Hnew) as ->.
  split; [done|]. revert Hnew. unfold polkit_hash_new.
  rewrite bind_run, p_new0_run. destruct (next_alloc w); [|done].
  rewrite bind_run, p_new0_run. cbn [alloc_plan trace].
  match goal with |- context [next_alloc ?w1] => destruct (next_alloc w1) end.
  - intros [= <-]. intros b. cbn [trace]. rewrite <- app_assoc, live_app.
    destruct b; simpl; lia.
  - rewrite bind_run.
    match goal with
    | |- context [polkit_hash_unref ?a ?b] =>
        by destruct (polkit_hash_unref a b) as [[? ?]|]
    end.
Qed.

(** X8: a table never leaks and never keeps a block it has freed: from
    [polkit_hash_new] through any sequence of inserts (stopped at the first
    one that fails for lack of memory, if any) to the release of the only
    reference, every block allocated on the way (the table, its bucket array,
    one node per new key) has been freed when the release returns. *)
Theorem table_life_cycle_frees_everything
    (hf : ptr -> Z) (ef : ptr -> ptr -> bool) (kd vd : ptr)
    (kvs : list (ptr * ptr)) (w0 w1 w2 : world) (h0 h : PolKitHash) (r : bool) :
  polkit_hash_new (Some hf) (Some ef) kd vd w0 = Some (Some h0, w1) ->
  insert_all h0 kvs w1 = Some ((r, h), w2) ->
  exists w3,
    polkit_hash_unref (Some h) w2 = Some (None, w3) /\
    forall b, live b (trace w3) = live b (trace w0).
Proof.
  intros Hnew Hall.
  destruct (new_table_live hf ef kd vd w0 _ _ Hnew)
    as (-> & Hlive0).
  destruct (insert_all_live kvs _ _ _ _ _ (new_table_wf hf ef kd vd) Hall)
    as (Hwf & Hrc & Hlive).
  eexists. split; [by apply unref_final|].
  intros b. cbn [trace]. rewrite live_app, teardown_events_live.
  specialize (Hlive b). specialize (Hlive0 b). lia.
Qed.

Lemma table_life_cycle_frees_everything_witness :
  polkit_hash_new (Some p_direct_hash) (Some p_direct_equal) 7 8
                  (World [true; true; true; false] [])
  = Some (Some (Table 1 11 (Some (replicate 11 []))
                      p_direct_hash p_direct_equal 7 8),
          World [true; false] [EvAlloc BlkHash true; EvAlloc BlkTopNodes true]) /\
  insert_all (Table 1 11 (Some (replicate 11 []))
                    p_direct_hash p_direct_equal 7 8)
             [(1, 100); (12, 200); (2, 300)]
             (World [true; false] [EvAlloc BlkHash true; EvAlloc BlkTopNodes true])
  = Some ((false,
           set_chain (Table 1 11 (Some (replicate 11 []))
                            p_direct_hash p_direct_equal 7 8) 1 [Node 1 100]),
          World [] [EvAlloc BlkHash true; EvAlloc BlkTopNodes true;
                    EvAlloc BlkNode true; EvAlloc BlkNode false]) /\
  exists w3,
    polkit_hash_unref
      (Some (set_chain (Table 1 11 (Some (replicate 11 []))
                              p_direct_hash p_direct_equal 7 8) 1 [Node 1 100]))
      (World [] [EvAlloc BlkHash true; EvAlloc BlkTopNodes true;
                 EvAlloc BlkNode true; EvAlloc BlkNode false])
    = Some (None, w3) /\
    forall b, live b (trace w3)
              = live b (trace (World [true; true; true; false] [])).
Proof.
  split; [reflexivity|]. split; [reflexivity|].
  apply (table_life_cycle_frees_everything p_direct_hash p_direct_equal 7 8
           [(1, 100); (12, 200); (2, 300)]
           (World [true; true; true; false] [])
           (World [true; false] [EvAlloc BlkHash true; EvAlloc BlkTopNodes true])
           _ (Table 1 11 (Some (replicate 11 [])) p_direct_hash p_direct_equal 7 8)
           _ false).
  - reflexivity.
  - reflexivity.
Defined.

Lemma insert_calls (h : PolKitHash) (k v : ptr) (w : world)
    (h' : PolKitHash) (w' : world) :
  wf h ->
  polkit_hash_insert (Some h) k v w = Some ((true, h'), w') ->
  exists evs,
    calls_of (trace w') = calls_of (trace w) ++ evs /\
    evs ++ concat (destroy_events h <$> nodes_of h')
    ≡ₚ concat (destroy_events h <$> nodes_of h) ++ destroy_events h (Node k v).
Proof.
  intros Hwf Hins.
  destruct (insert_effect _ _ _ _ _ _ _ Hwf Hins)
    as [(old & _ & _ & Hperm & ->)
       |[(_ & _ & Hperm & ->)|(_ & ? & _)]]; [| |done];
    cbn [trace]; rewrite calls_of_app.
  - exists (destroy_events h old). rewrite destroy_events_calls.
    split; [done|].
    apply (concat_fmap_perm (destroy_events h)) in Hperm.
    rewrite !fmap_cons in Hperm. cbn [concat] in Hperm.
    rewrite Hperm. apply Permutation_app_comm.
  - exists []. split; [done|].
    apply (concat_fmap_perm (destroy_events h)) in Hperm.
    rewrite fmap_cons in Hperm. cbn [concat] in Hperm.
    simpl. rewrite Hperm. apply Permutation_app_comm.
Qed.

Lemma insert_all_calls (kvs : list (ptr * ptr)) (h : PolKitHash) (w : world)
    (h' : PolKitHash) (w' : world) :
  wf h ->
  insert_all h kvs w = Some ((true, h'), w') ->
  destroy_events h' = destroy_events h /\
  exists evs,
    calls_of (trace w') = calls_of (trace w) ++ evs /\
    evs ++ concat (destroy_events h <$> nodes_of h')
    ≡ₚ concat (destroy_events h <$> nodes_of h)
       ++ concat ((λ kv, destroy_events h (Node kv.1 kv.2)) <$> kvs).
Proof.
  revert h w. induction kvs as [|[k v] kvs IH]; intros h w Hwf;
    cbn [insert_all fst snd].
  - intros [= <- <-]. split; [done|]. exists [].
    by rewrite !app_nil_r.
  - rewrite bind_run.
    destruct (polkit_hash_insert (Some h) k v w) as [[[r1 h1] w1]|] eqn:Hins;
      [|done].
    destruct r1; [|done]. intros Hrest.
    assert (Hwf1 : wf h1) by by eapply insert_wf.
    destruct (insert_config _ _ _ _ _ _ _ Hwf Hins) as (_ & Hkd & Hvd).
    pose proof (destroy_events_config _ _ Hkd Hvd) as Hde.
    destruct (insert_calls _ _ _ _ _ _ Hwf Hins) as (evs1 & Hc1 & Hp1).
    destruct (IH _ _ Hwf1 Hrest) as (Hde' & evs2 & Hc2 & Hp2).
    rewrite Hde in Hp2. split; [congruence|].
    exists (evs1 ++ evs2). split; [by rewrite Hc2, Hc1, app_assoc|].
    rewrite fmap_cons. cbn [concat fst snd].
    rewrite <- app_assoc, Hp2, !app_assoc, Hp1.
    by rewrite <- !app_assoc.
Qed.

Lemma new_calls (hf : option (ptr -> Z)) (ef : option (ptr -> ptr -> bool))
    (kd vd : ptr) (w : world) (hash : option PolKitHash) (w' : world) :
  polkit_hash_new hf ef kd vd w = Some (hash, w') ->
  calls_of (trace w') = calls_of (trace w).
Proof.
  destruct w as [plan tr].
  destruct hf as [hf'|], ef as [ef'|];
    [|intros [= <- <-]; cbn; by rewrite calls_of_app, app_nil_r ..].
  destruct plan as [|[] [|[] plan]]; lazy; intros [= <- <-];
    by rewrite ?calls_of_app, ?app_nil_r.
Qed.

(** X9: the table destroys what it owns exactly once. From [polkit_hash_new]
    through any sequence of successful inserts to the release of the only
    reference, the destructor calls made in all (at replacements and at the
    final release) are, up to order, one key-destructor call per inserted key
    (if a key destructor is set) and one value-destructor call per inserted
    value (if a value destructor is set), and nothing else. *)
Theorem life_cycle_destroys_each_key_and_value_once
    (hf : ptr -> Z) (ef : ptr -> ptr -> bool) (kd vd : ptr)
    (kvs : list (ptr * ptr)) (w0 w1 w2 : world) (h0 h : PolKitHash) :
  polkit_hash_new (Some hf) (Some ef) kd vd w0 = Some (Some h0, w1) ->
  insert_all h0 kvs w1 = Some ((true, h), w2) ->
  exists w3 calls,
    polkit_hash_unref (Some h) w2 = Some (None, w3) /\
    calls_of (trace w3) = calls_of (trace w0) ++ calls /\
    calls ≡ₚ concat ((λ kv, (if kd =? NULL then [] else [EvCall kd kv.1]) ++
                            (if vd =? NULL then [] else [EvCall vd kv.2]))
                       <$> kvs).
Proof.
  intros Hnew Hall. pose proof (new_shape _ _ _ _ _ _ _ Hnew) as ->.
  assert (Hc0 : calls_of (trace w1) = calls_of (trace w0)).
  { by eapply new_calls. }
  pose proof (new_table_wf hf ef kd vd) as Hwf0.
  destruct (insert_all_live kvs _ _ _ _ _ Hwf0 Hall) as (Hwf & Hrc & _).
  destruct (insert_all_calls kvs _ _ _ _ Hwf0 Hall) as (Hde & evs & Hc & Hp).
  eexists _, (evs ++ concat (destroy_events h <$> nodes_of h)).
  split; [by apply unref_final|]. cbn [trace]. split.
  - by rewrite calls_of_app, teardown_events_calls, Hc, Hc0, app_assoc.
  - rewrite Hde, Hp. by rewrite new_table_nodes.
Qed.

Lemma life_cycle_destroys_each_key_and_value_once_witness :
  polkit_hash_new (Some p_direct_hash) (Some p_direct_equal) 7 8 world_ok
  = Some (Some (Table 1 11 (Some (replicate 11 []))
                      p_direct_hash p_direct_equal 7 8),
          World [] [EvAlloc BlkHash true; EvAlloc BlkTopNodes true]) /\
  insert_all (Table 1 11 (Some (replicate 11 []))
                    p_direct_hash p_direct_equal 7 8)
             [(1, 99); (12, 200); (1, 100); (2, 300)]
             (World [] [EvAlloc BlkHash true; EvAlloc BlkTopNodes true])
  = Some ((true, example_table),
          World [] [EvAlloc BlkHash true; EvAlloc BlkTopNodes true;
                    EvAlloc BlkNode true; EvAlloc BlkNode true;
                    EvCall 7 1; EvCall 8 99; EvAlloc BlkNode true]) /\
  exists w3 calls,
    polkit_hash_unref (Some example_table)
      (World [] [EvAlloc BlkHash true; EvAlloc BlkTopNodes true;
                 EvAlloc BlkNode true; EvAlloc BlkNode true;
                 EvCall 7 1; EvCall 8 99; EvAlloc BlkNode true])
    = Some (None, w3) /\
    calls_of (trace w3) = calls_of (trace world_ok) ++ calls /\
    calls ≡ₚ concat ((λ kv, (if 7 =? NULL then [] else [EvCall 7 kv.1]) ++
                            (if 8 =? NULL then [] else [EvCall 8 kv.2]))
                       <$> [(1, 99); (12, 200); (1, 100); (2, 300)]).
Proof.
  split; [reflexivity|]. split; [reflexivity|].
  apply (life_cycle_destroys_each_key_and_value_once
           p_direct_hash p_direct_equal 7 8
           [(1, 99); (12, 200); (1, 100); (2, 300)] world_ok
           (World [] [EvAlloc BlkHash true; EvAlloc BlkTopNodes true])
           _ (Table 1 11 (Some (replicate 11 [])) p_direct_hash p_direct_equal 7 8)
           example_table).
  - reflexivity.
  - reflexivity.
Defined.

(** ** Acquire and release *)

(** X10: on a table with a positive reference count below [INT_MAX], an
    acquire followed by a release is a no-operation: the table comes back
    exactly as it was (same count, same nodes) and nothing is allocated,
    freed or destroyed. *)
Theorem ref_then_unref_is_identity (h : PolKitHash) (w : world) :
  0 < refcount h < INT_MAX ->
  (polkit_hash_ref (Some h) ≫= polkit_hash_unref) w = Some (Some h, w).
Proof.
  intros Hrc. rewrite bind_run, ref_run by lia.
  rewrite unref_keep by (cbn [refcount set_refcount]; lia).
  unfold set_refcount. cbn [refcount num_top_nodes top_nodes hash_func
    key_equal_func key_destroy_func value_destroy_func].
  replace (refcount h + 1 - 1) with (refcount h) by lia. by destruct h.
Qed.

Lemma ref_then_unref_is_identity_witness :
  0 < refcount example_table < INT_MAX /\
  (polkit_hash_ref (Some example_table) ≫= polkit_hash_unref) world_ok
  = Some (Some example_table, world_ok).
Proof.
  split; [done|].
  apply (ref_then_unref_is_identity example_table world_ok). done.
Defined.

(** ** The direct-hash block of the test routine *)

Lemma insert_callbacks (h : PolKitHash) (k v : ptr) (w : world) (r : bool)
    (h' : PolKitHash) (w' : world) :
  wf h ->
  polkit_hash_insert (Some h) k v w = Some ((r, h'), w') ->
  hash_func h' = hash_func h /\ key_equal_func h' = key_equal_func h.
Proof.
  intros Hwf Hins. by destruct (insert_shape _ _ _ _ _ _ _ Hwf Hins) as [c ->].
Qed.

Lemma no_destructors_no_events (h : PolKitHash) (node : PolKitHashNode) :
  key_destroy_func h = NULL ->
  value_destroy_func h = NULL ->
  destroy_events h node = [].
Proof. unfold destroy_events. by intros -> ->. Qed.

(** One insert into an identity-keyed table without destructors: it returns,
    keeps the shape of the table and the balance of blocks, calls nothing,
    and when it succeeds the key is found with the value just stored. *)
Lemma direct_insert_step (h : PolKitHash) (k v : ptr) (w : world) :
  wf h ->
  hash_func h = p_direct_hash ->
  key_equal_func h = p_direct_equal ->
  key_destroy_func h = NULL ->
  value_destroy_func h = NULL ->
  exists r h' w',
    polkit_hash_insert (Some h) k v w = Some ((r, h'), w') /\
    wf h' /\ refcount h' = refcount h /\
    hash_func h' = p_direct_hash /\ key_equal_func h' = p_direct_equal /\
    key_destroy_func h' = NULL /\ value_destroy_func h' = NULL /\
    (forall b, live b (trace w') - blocks_held h' b
               = live b (trace w) - blocks_held h b) /\
    calls_of (trace w') = calls_of (trace w) /\
    (r = true ->
     forall found w2,
       polkit_hash_lookup (Some h') k found w2
       = Some ((v, if found is Some _ then Some true else None), w2)).
Proof.
  intros Hwf Hhf Hef Hkd Hvd.
  destruct (insert_total h k v w Hwf) as [[[r h'] w'] Hins].
  exists r, h', w'. split; [done|].
  assert (Hwf' : wf h') by by eapply insert_wf.
  destruct (insert_config _ _ _ _ _ _ _ Hwf Hins) as (Hrc & Hkd' & Hvd').
  destruct (insert_callbacks _ _ _ _ _ _ _ Hwf Hins) as (Hhf' & Hef').
  repeat (split; [congruence|]).
  split; [intros b; by eapply insert_live|]. split.
  - destruct (insert_effect _ _ _ _ _ _ _ Hwf Hins)
      as [(old & _ & _ & _ & ->)|[(_ & _ & _ & ->)|(_ & _ & _ & ->)]];
      cbn [trace]; rewrite calls_of_app, ?no_destructors_no_events by done;
      by rewrite app_nil_r.
  - intros -> found w2.
    assert (Hst : stored_node h' k = Some (Node k v)).
    { eapply stored_after_insert_same; [exact Hwf| | | | |exact Hins];
        rewrite ?Hhf, Hef.
      - exact p_direct_equal_symmetric.
      - exact p_direct_equal_transitive.
      - exact p_direct_hash_respects_equal.
      - apply Z.eqb_refl. }
    rewrite lookup_run by done.
    assert (present h' k = true) as ->
      by (apply present_stored_node; by rewrite Hst).
    by rewrite Hst.
Qed.

Lemma direct_unref_final (h : PolKitHash) (w : world) :
  wf h ->
  refcount h = 1 ->
  key_destroy_func h = NULL ->
  value_destroy_func h = NULL ->
  exists w',
    polkit_hash_unref (Some h) w = Some (None, w') /\
    (forall b, live b (trace w') = live b (trace w) - blocks_held h b) /\
    calls_of (trace w') = calls_of (trace w).
Proof.
  intros Hwf Hrc Hkd Hvd. eexists. split; [by apply unref_final|].
  cbn [trace]. split.
  - intros b. rewrite live_app, teardown_events_live. lia.
  - rewrite calls_of_app, teardown_events_calls.
    assert (concat (destroy_events h <$> nodes_of h) = []) as ->.
    { induction (nodes_of h) as [|node nodes IH]; [done|].
      rewrite fmap_cons. cbn [concat].
      by rewrite no_destructors_no_events, IH. }
    by rewrite app_nil_r.
Qed.

(** X11: the direct-hash block of [_run_test] runs to its end whatever the
    allocator does, whatever the address of the table and whatever the local
    [found] held before: neither assertion fails and nothing undefined
    happens, whichever allocation fails. When it returns, every block it
    allocated has been freed and no destructor has been called. *)
Theorem run_test_direct_block_passes (self : ptr) (found : bool) (w : world) :
  exists w',
    run_test_direct_block self found w = Some (true, w') /\
    (forall b, live b (trace w') = live b (trace w)) /\
    calls_of (trace w') = calls_of (trace w).
Proof.
  unfold run_test_direct_block. rewrite bind_run.
  destruct (new_outcome (Some p_direct_hash) (Some p_direct_equal) NULL NULL w)
    as (hash & w1 & -> & Hcalls & Hcase).
  destruct hash as [h0|]; [|by eexists].
  destruct Hcase as [(hf' & ef' & [= <-] & [= <-] & ->) Hlive0].
  pose proof (new_table_wf p_direct_hash p_direct_equal NULL NULL) as Hwf0.
  destruct (direct_insert_step _ self self w1 Hwf0 eq_refl eq_refl eq_refl eq_refl)
    as (r1 & h1 & w2 & Hins1 & Hwf1 & Hrc1 & Hhf1 & Hef1 & Hkd1 & Hvd1
        & Hlive1 & Hcalls1 & Hlook1).
  cbn [refcount] in Hrc1.
  rewrite bind_run, Hins1. lazy beta iota. rewrite bind_run.
  assert (Hend : forall h2 w3,
             wf h2 -> refcount h2 = 1 ->
             key_destroy_func h2 = NULL -> value_destroy_func h2 = NULL ->
             (forall b, live b (trace w3) - blocks_held h2 b
                        = live b (trace w)) ->
             calls_of (trace w3) = calls_of (trace w) ->
             exists w',
               (polkit_hash_unref (Some h2) ≫= λ _, mret true) w3
               = Some (true, w') /\
               (forall b, live b (trace w') = live b (trace w)) /\
               calls_of (trace w') = calls_of (trace w)).
  { intros h2 w3 Hwf2 Hrc2 Hkd2 Hvd2 Hlive2 Hcalls2.
    destruct (direct_unref_final h2 w3 Hwf2 Hrc2 Hkd2 Hvd2)
      as (w4 & Hun & Hlive4 & Hcalls4).
    exists w4. rewrite bind_run, Hun. split; [done|]. split.
    - intros b. rewrite Hlive4. apply Hlive2.
    - congruence. }
  assert (Hbal1 : forall b, live b (trace w2) - blocks_held h1 b
                            = live b (trace w)).
  { intros b. rewrite Hlive1, Hlive0. lia. }
  destruct r1.
  - rewrite bind_run, (Hlook1 eq_refl). lazy beta iota.
    rewrite bind_run, Z.eqb_refl. cbn [andb].
    rewrite bool_decide_eq_true_2 by done.
    change (g_assert true w2) with (Some (tt, w2)). lazy beta iota.
    destruct (direct_insert_step h1 self NULL w2 Hwf1 Hhf1 Hef1 Hkd1 Hvd1)
      as (r2 & h2 & w3 & Hins2 & Hwf2 & Hrc2 & _ & _ & Hkd2 & Hvd2
          & Hlive2 & Hcalls2 & Hlook2).
    rewrite bind_run, Hins2. lazy beta iota.
    assert (Hbal2 : forall b, live b (trace w3) - blocks_held h2 b
                              = live b (trace w)).
    { intros b. rewrite Hlive2. apply Hbal1. }
    destruct r2.
    + rewrite bind_run, (Hlook2 eq_refl). lazy beta iota.
      rewrite bind_run. change (NULL =? NULL) with true. cbn [andb].
      rewrite bool_decide_eq_true_2 by done.
      change (g_assert true w3) with (Some (tt, w3)). lazy beta iota.
      rewrite ret_run.
      apply Hend; [done|congruence|done|done|done|congruence].
    + rewrite ret_run.
      apply Hend; [done|congruence|done|done|done|congruence].
  - rewrite ret_run.
    apply Hend; [done|congruence|done|done|done|congruence].
Qed.

(** ** Actions: identifiers *)

Lemma action_set_all_run (ids : list (option string)) (a : Action.PolKitAction)
    (w : world) :
  exists w',
    action_set_all ids (Some a) w
    = Some (Some (Action.Build (Action.refcount a)
                               (last (Action.id a :: ids) ≫= id)), w') /\
    alloc_plan w' = alloc_plan w /\
    calls_of (trace w') = calls_of (trace w) /\
    forall b,
      live b (trace w')
      - action_blocks_held (Action.Build (Action.refcount a)
                                         (last (Action.id a :: ids) ≫= id)) b
      = live b (trace w) - action_blocks_held a b.
Proof.
  revert a w. induction ids as [|action_id ids IH]; intros a w.
  - exists w. cbn. by destruct a.
  - cbn [action_set_all]. rewrite bind_run, action_set_run.
    destruct (IH (Action.Build (Action.refcount a) action_id)
                 (World (alloc_plan w)
                    (trace w ++
                     (if Action.id a is Some old
                      then [EvFree (BlkString old)] else []) ++
                     (if action_id is Some s
                      then [EvAlloc (BlkString s) true] else []))))
      as (w' & Hrun & Hplan & Hcalls & Hlive).
    exists w'. cbn [Action.refcount Action.id] in *.
    rewrite last_cons_cons. split; [exact Hrun|]. split; [done|]. split.
    + rewrite Hcalls. cbn [trace]. rewrite !calls_of_app.
      destruct (Action.id a), action_id; cbn; by rewrite ?app_nil_r.
    + intros b. rewrite Hlive. cbn [trace]. rewrite !live_app.
      unfold action_blocks_held. cbn [Action.id].
      destruct (Action.id a) as [old|], action_id as [s|], b; cbn;
        repeat case_decide; simplify_eq; lia.
Qed.

Lemma action_unref_final (a : Action.PolKitAction) (w : world) :
  Action.refcount a = 1 ->
  Action.libpolkit_action_unref (Some a) w
  = Some (None,
          World (alloc_plan w)
                (trace w ++
                 (if Action.id a is Some s then [EvFree (BlkString s)] else []) ++
                 [EvFree BlkAction])).
Proof.
  intros Hrc. destruct a as [rc [s|]], w as [plan tr];
    cbn [Action.refcount] in Hrc; subst rc; lazy -[app];
    by rewrite <- ?app_assoc, ?app_nil_r.
Qed.

(** X14: an action never leaks: from [libpolkit_action_new] through any
    sequence of [libpolkit_action_set_action_id] calls to the release of its
    only reference, every identifier copy and the action itself have been
    freed when the release returns, and the release succeeds. *)
Theorem action_life_cycle_frees_everything (ids : list (option string))
    (w : world) :
  exists w',
    (action ← Action.libpolkit_action_new;
     action ← action_set_all ids action;
     Action.libpolkit_action_unref action) w = Some (None, w') /\
    forall b, live b (trace w') = live b (trace w).
Proof.
  destruct (action_set_all_run ids (Action.Build 1 None)
              (World (alloc_plan w) (trace w ++ [EvAlloc BlkAction true])))
    as (w1 & Hrun & _ & _ & Hlive).
  cbn [Action.refcount Action.id] in *.
  eexists. split.
  - rewrite bind_run.
    change (Action.libpolkit_action_new w)
      with (Some (Some (Action.Build 1 None),
                  World (alloc_plan w) (trace w ++ [EvAlloc BlkAction true]))).
    lazy beta iota. rewrite bind_run, Hrun. lazy beta iota.
    by apply action_unref_final.
  - intros b. specialize (Hlive b). cbn [trace Action.id] in *.
    rewrite !live_app in *. unfold action_blocks_held in Hlive.
    cbn [Action.id] in Hlive.
    destruct (last (None :: ids) ≫= id) as [s|], b; cbn in *;
      repeat case_decide; simplify_eq; lia.
Qed.

(** ** Actions: reference counting *)

Lemma action_ref_run (a : Action.PolKitAction) (w : world) :
  Action.refcount a < INT_MAX ->
  Action.libpolkit_action_ref (Some a) w
  = Some (Some (Action.Build (Action.refcount a + 1) (Action.id a)), w).
Proof.
  intros Hrc. unfold Action.libpolkit_action_ref, int_incr. rewrite bind_run.
  destruct (Z.leb_spec (Action.refcount a + 1) INT_MAX); [done|lia].
Qed.

Lemma action_ref_times_run (n : nat) (a : Action.PolKitAction) (w : world) :
  Action.refcount a + Z.of_nat n <= INT_MAX ->
  action_ref_times n (Some a) w
  = Some (Some (Action.Build (Action.refcount a + Z.of_nat n) (Action.id a)), w).
Proof.
  revert a. induction n as [|n IH]; intros a Hrc.
  - simpl. rewrite ret_run, Z.add_0_r. by destruct a.
  - cbn [action_ref_times]. rewrite bind_run, action_ref_run by lia.
    rewrite IH by (cbn [Action.refcount]; lia). cbn [Action.refcount Action.id].
    replace (Action.refcount a + Z.of_nat (S n))
      with (Action.refcount a + 1 + Z.of_nat n) by lia.
    reflexivity.
Qed.

Lemma action_unref_keep (a : Action.PolKitAction) (w : world) :
  1 < Action.refcount a ->
  Action.libpolkit_action_unref (Some a) w
  = Some (Some (Action.Build (Action.refcount a - 1) (Action.id a)), w).
Proof.
  intros Hrc. unfold Action.libpolkit_action_unref, int_decr. rewrite bind_run.
  destruct (Z.leb_spec INT_MIN (Action.refcount a - 1));
    [|unfold INT_MIN in *; lia].
  rewrite ret_run.
  destruct (Z.ltb_spec 0 (Action.refcount a - 1)); [done|lia].
Qed.

Lemma action_unref_times_keep (n : nat) (a : Action.PolKitAction) (w : world) :
  Z.of_nat n < Action.refcount a ->
  action_unref_times n (Some a) w
  = Some (Some (Action.Build (Action.refcount a - Z.of_nat n) (Action.id a)), w).
Proof.
  revert a. induction n as [|n IH]; intros a Hrc.
  - simpl. rewrite ret_run, Z.sub_0_r. by destruct a.
  - cbn [action_unref_times]. rewrite bind_run, action_unref_keep by lia.
    rewrite IH by (cbn [Action.refcount]; lia). cbn [Action.refcount Action.id].
    replace (Action.refcount a - Z.of_nat (S n))
      with (Action.refcount a - 1 - Z.of_nat n) by lia.
    reflexivity.
Qed.

Lemma action_unref_times_last (n : nat) (action : option Action.PolKitAction)
    (w : world) :
  action_unref_times (S n) action w
  = (action_unref_times n action ≫= Action.libpolkit_action_unref) w.
Proof.
  revert action w. induction n as [|n IH]; intros action w.
  - simpl. rewrite !bind_run, ret_run.
    by destruct (Action.libpolkit_action_unref action w) as [[? ?]|].
  - cbn [action_unref_times] in *. rewrite !bind_run.
    destruct (Action.libpolkit_action_unref action w) as [[action' w']|];
      [|done].
    by rewrite IH, bind_run.
Qed.

(** X15: an action created with one reference and acquired [N] more times
    (with [N + 1] within the range of the [int] counter) survives the first
    [N] releases untouched: same identifier, nothing freed. The [(N+1)]-th
    release frees the identifier copy, if there is one, and then the action
    itself. *)
Theorem action_freed_at_last_release (a : Action.PolKitAction) (N : nat)
    (w : world) :
  Action.refcount a = 1 ->
  Z.of_nat N < INT_MAX ->
  exists aN,
    action_ref_times N (Some a) w = Some (Some aN, w) /\
    (forall j, (j <= N)%nat ->
       exists aj, action_unref_times j (Some aN) w = Some (Some aj, w) /\
                  Action.id aj = Action.id a) /\
    action_unref_times (S N) (Some aN) w
    = Some (None,
            World (alloc_plan w)
                  (trace w ++
                   (if Action.id a is Some s then [EvFree (BlkString s)] else []) ++
                   [EvFree BlkAction])).
Proof.
  intros Hrc HN.
  exists (Action.Build (Action.refcount a + Z.of_nat N) (Action.id a)).
  split; [|split].
  - apply action_ref_times_run. lia.
  - intros j Hj. eexists. split.
    + apply action_unref_times_keep. cbn [Action.refcount]. lia.
    + reflexivity.
  - rewrite action_unref_times_last, bind_run.
    rewrite action_unref_times_keep by (cbn [Action.refcount]; lia).
    rewrite action_unref_final; [done|]. cbn [Action.refcount]. lia.
Qed.

Lemma action_freed_at_last_release_witness :
  Action.refcount (Action.Build 1 (Some "org.example.a")) = 1 /\
  Z.of_nat 2 < INT_MAX /\
  exists aN,
    action_ref_times 2 (Some (Action.Build 1 (Some "org.example.a"))) world_ok
    = Some (Some aN, world_ok) /\
    (forall j, (j <= 2)%nat ->
       exists aj, action_unref_times j (Some aN) world_ok
                  = Some (Some aj, world_ok) /\
                  Action.id aj = Action.id (Action.Build 1 (Some "org.example.a"))) /\
    action_unref_times 3 (Some aN) world_ok
    = Some (None,
            World (alloc_plan world_ok)
                  (trace world_ok ++
                   (if Action.id (Action.Build 1 (Some "org.example.a")) is Some s
                    then [EvFree (BlkString s)] else []) ++
                   [EvFree BlkAction])).
Proof.
  split; [reflexivity|]. split; [done|].
  apply (action_freed_at_last_release
           (Action.Build 1 (Some "org.example.a")) 2 world_ok).
  - reflexivity.
  - done.
Defined.

(** ** What insert leaves alone *)

(** X16: an insert, successful or not, touches nothing but the chain of the
    bucket of its key: the reference count, the bucket count, the callbacks
    and every other bucket are as before, and the table stays well formed. *)
Theorem insert_touches_one_bucket (h : PolKitHash) (k v : ptr) (w : world)
    (r : bool) (h' : PolKitHash) (w' : world) :
  wf h ->
  polkit_hash_insert (Some h) k v w = Some ((r, h'), w') ->
  wf h' /\
  refcount h' = refcount h /\
  num_top_nodes h' = num_top_nodes h /\
  hash_func h' = hash_func h /\
  key_equal_func h' = key_equal_func h /\
  key_destroy_func h' = key_destroy_func h /\
  value_destroy_func h' = value_destroy_func h /\
  forall i,
    Z.of_nat i <> to_uint (hash_func h k) mod num_top_nodes h ->
    buckets_of h' !! i = buckets_of h !! i.
Proof.
  intros Hwf Hins. split; [by eapply insert_wf|].
  destruct (insert_shape _ _ _ _ _ _ _ Hwf Hins) as [chain' ->].
  repeat (split; [reflexivity|]).
  intros i Hi. rewrite set_chain_buckets. apply list_lookup_insert_ne.
  intros <-. apply Hi. unfold slot. destruct Hwf as [Hn _].
  pose proof (Z.mod_pos_bound (to_uint (hash_func h k)) (num_top_nodes h)).
  lia.
Qed.

Lemma insert_touches_one_bucket_witness :
  wf example_table /\
  polkit_hash_insert (Some example_table) 23 5 world_ok
  = Some ((true, set_chain example_table 1 [Node 1 100; Node 12 200; Node 23 5]),
          World [] [EvAlloc BlkNode true]) /\
  wf (set_chain example_table 1 [Node 1 100; Node 12 200; Node 23 5]) /\
  refcount (set_chain example_table 1 [Node 1 100; Node 12 200; Node 23 5])
  = refcount example_table /\
  num_top_nodes (set_chain example_table 1 [Node 1 100; Node 12 200; Node 23 5])
  = num_top_nodes example_table /\
  hash_func (set_chain example_table 1 [Node 1 100; Node 12 200; Node 23 5])
  = hash_func example_table /\
  key_equal_func (set_chain example_table 1 [Node 1 100; Node 12 200; Node 23 5])
  = key_equal_func example_table /\
  key_destroy_func (set_chain example_table 1 [Node 1 100; Node 12 200; Node 23 5])
  = key_destroy_func example_table /\
  value_destroy_func (set_chain example_table 1 [Node 1 100; Node 12 200; Node 23 5])
  = value_destroy_func example_table /\
  forall i,
    Z.of_nat i <> to_uint (hash_func example_table 23)
                  mod num_top_nodes example_table ->
    buckets_of (set_chain example_table 1 [Node 1 100; Node 12 200; Node 23 5]) !! i
    = buckets_of example_table !! i.
Proof.
  split; [split; [done|reflexivity]|]. split; [reflexivity|].
  apply (insert_touches_one_bucket example_table 23 5 world_ok true _
           (World [] [EvAlloc BlkNode true])).
  - split; [done|reflexivity].
  - reflexivity.
Defined.

(** ** Lookup against the whole table *)

Lemma find_position {A} (f : A -> bool) (l : list A) (x : A) :
  List.find f l = Some x -> exists a, l !! a = Some x /\ f x = true.
Proof.
  intros Hfind. destruct (find_split _ _ _ Hfind) as (l1 & l2 & -> & _ & Hx).
  exists (length l1). split; [|done]. by apply list_lookup_middle.
Qed.

(** X17: in a reachable table whose callbacks honour their contract, every
    stored pair is retrieved through any key equal to its key: although
    lookup scans a single bucket, a node anywhere in the table whose key
    matches the key looked up is the one lookup finds, and its value is
    returned with the found flag set. *)
Theorem lookup_finds_any_matching_node
    (hf : ptr -> Z) (ef : ptr -> ptr -> bool) (kd vd : ptr) (h : PolKitHash)
    (i a : nat) (node : PolKitHashNode) (k : ptr) (flag : bool) (w : world) :
  equal_symmetric ef ->
  equal_transitive ef ->
  hash_respects_equal hf ef ->
  reachable hf ef kd vd h ->
  node_at h i a = Some node ->
  ef k (key node) = true ->
  polkit_hash_lookup (Some h) k (Some flag) w
  = Some ((value node, Some true), w).
Proof.
  intros Hsym Htrans Hhash Hreach Hnode Heq.
  destruct (reachable_slots _ _ _ _ _ Hreach) as (Hwf & Hslots & Hhf & Hef).
  pose proof (reachable_distinct _ _ _ _ _ Hsym Htrans Hreach) as Hdist.
  assert (Hp : present h k = true).
  { eapply stored_anywhere_present; [done|done| |exact Hnode|].
    - by rewrite Hhf, Hef.
    - by rewrite Hef. }
  rewrite lookup_run, Hp by done.
  apply present_stored_node in Hp as [found Hfound]. rewrite Hfound. simpl.
  unfold stored_node in Hfound.
  destruct (find_position _ _ _ Hfound) as (a' & Ha' & Hm).
  unfold matching in Hm. rewrite Hef in Hm.
  unfold node_at in Hnode.
  destruct (buckets_of h !! i) as [chain|] eqn:Hchain; [|done].
  simpl in Hnode.
  assert (Hi : slot h k = i).
  { pose proof (Hslots _ _ Hchain) as Hs. rewrite Forall_forall in Hs.
    rewrite <- (Hs node) by by eapply list_elem_of_lookup_2.
    unfold slot. rewrite Hhf. by rewrite (Hhash _ _ Heq). }
  assert (chain_at h k = chain) as Hck
    by (unfold chain_at; by rewrite Hi, Hchain).
  rewrite Hck in Ha'.
  assert (a' = a) as ->.
  { eapply (chain_distinct_lookup ef);
      [done| |exact Ha'|exact Hnode|].
    - rewrite <- Hef. by apply Hdist with i.
    - eapply Htrans; [|exact Heq]. by apply Hsym. }
  congruence.
Qed.

Lemma lookup_finds_any_matching_node_witness :
  equal_symmetric p_direct_equal /\
  equal_transitive p_direct_equal /\
  hash_respects_equal p_direct_hash p_direct_equal /\
  reachable p_direct_hash p_direct_equal 7 8 example_table /\
  node_at example_table 1 1 = Some (Node 12 200) /\
  p_direct_equal 12 (key (Node 12 200)) = true /\
  polkit_hash_lookup (Some example_table) 12 (Some false) world_ok
  = Some ((value (Node 12 200), Some true), world_ok).
Proof.
  split; [exact p_direct_equal_symmetric|].
  split; [exact p_direct_equal_transitive|].
  split; [exact p_direct_hash_respects_equal|].
  split; [exact example_table_reachable|].
  split; [reflexivity|]. split; [reflexivity|].
  apply (lookup_finds_any_matching_node p_direct_hash p_direct_equal 7 8
           example_table 1 1 (Node 12 200) 12 false world_ok).
  - exact p_direct_equal_symmetric.
  - exact p_direct_equal_transitive.
  - exact p_direct_hash_respects_equal.
  - exact example_table_reachable.
  - reflexivity.
  - reflexivity.
Defined.

(** X18: lookup never invents a value: whenever it reports a key as found,
    the value it returns is the value of a node of the table whose key
    matches the key looked up, and that node sits in the bucket of the key. *)
Theorem lookup_found_is_stored (h : PolKitHash) (k : ptr) (flag : bool)
    (w : world) (v : ptr) (w' : world) :
  wf h ->
  polkit_hash_lookup (Some h) k (Some flag) w = Some ((v, Some true), w') ->
  exists a node,
    node_at h (slot h k) a = Some node /\
    key_equal_func h k (key node) = true /\
    value node = v.
Proof.
  intros Hwf. rewrite lookup_run by done. intros [= Hv Hp _].
  apply present_stored_node in Hp as [node Hnode]. rewrite Hnode in Hv.
  unfold stored_node in Hnode.
  destruct (find_position _ _ _ Hnode) as (a & Ha & Hm).
  exists a, node. split; [|done].
  unfold node_at. by rewrite wf_chain_at.
Qed.

Lemma lookup_found_is_stored_witness :
  wf example_table /\
  polkit_hash_lookup (Some example_table) 12 (Some false) world_ok
  = Some ((200, Some true), world_ok) /\
  exists a node,
    node_at example_table (slot example_table 12) a = Some node /\
    key_equal_func example_table 12 (key node) = true /\
    value node = 200.
Proof.
  split; [split; [done|reflexivity]|]. split; [reflexivity|].
  apply (lookup_found_is_stored example_table 12 false world_ok 200 world_ok).
  - split; [done|reflexivity].
  - reflexivity.
Defined.
